(** * Speech hooks of the tutoring front end

    A shallow embedding of the two React hooks files that drive voice
    input and output:

    - [frontend/src/hooks/useWebSpeechAPI.js]
      ([useWebSpeechRecognition], [useEnhancedTextToSpeech]);
    - [frontend/src/hooks/useSpeechRecognition.js] ([useTextToSpeech]) with
      the [apiService.textToSpeech] call of [services/api.js].

    React state cells ([useState]) and refs ([useRef]) become record
    fields; the browser objects the hooks talk to (Audio elements, object
    URLs, the [speechSynthesis] queue) become an explicit [Platform]
    value.  [console.*] calls have no effect on either and are left out. *)

From Stdlib Require Import QArith.
From stdpp Require Import base strings list gmap.

Local Open Scope string_scope.
Local Open Scope list_scope.

(** ** JavaScript string primitives used by the hooks *)

(** A string is the sequence of its code units, and positions count
    code units.  The units here are 8 bits wide, which is all that the
    language tags and voice names handled by the hooks need. *)

Module JsString.

Fixpoint take (n : nat) (s : string) : string :=
  match n, s with
  | S n', String c s' => String c (take n' s')
  | _, _ => EmptyString
  end.

Fixpoint drop (n : nat) (s : string) : string :=
  match n, s with
  | S n', String _ s' => drop n' s'
  | _, _ => s
  end.

(** [s.substring(indexStart, indexEnd)]: indices are clamped to the
    length and swapped when out of order. *)
Definition substring (s : string) (indexStart indexEnd : nat) : string :=
  let lo := Nat.min indexStart indexEnd in
  let hi := Nat.max indexStart indexEnd in
  take (hi - lo) (drop lo s).

(** [s.startsWith(p)] *)
Fixpoint startsWith (s p : string) {struct p} : bool :=
  match p, s with
  | EmptyString, _ => true
  | String a p', String b s' => Ascii.eqb a b && startsWith s' p'
  | String _ _, EmptyString => false
  end.

(** [s.includes(sub)] *)
Fixpoint includes (s sub : string) : bool :=
  startsWith s sub ||
  match s with
  | EmptyString => false
  | String _ s' => includes s' sub
  end.

(** Array.prototype.find: the first element satisfying the predicate,
    [None] standing for [undefined]. *)
Fixpoint find {A : Type} (p : A → bool) (l : list A) : option A :=
  match l with
  | [] => None
  | x :: l' => if p x then Some x else find p l'
  end.

End JsString.

(** ** useWebSpeechRecognition *)

Module Recognition.

(** One entry of [event.results]: the transcript of its first
    alternative ([results[i][0].transcript]) and its [isFinal] flag. *)
Record SpeechRecognitionResult := {
  result_transcript : string;
  isFinal : bool;
}.

Record SpeechRecognitionEvent := {
  resultIndex : nat;
  results : list SpeechRecognitionResult;
}.

(** The hook's cells: five [useState] values, the [finalTranscriptRef]
    ref and the [lang] property of the recognizer held in
    [recognitionRef]. *)
Record State := {
  isListening : bool;
  transcript : string;
  interimTranscript : string;
  error : option string;
  isSupported : bool;
  finalTranscriptRef : string;
  recognition_lang : string;
}.

Definition setIsListening (b : bool) (s : State) : State :=
  {| isListening := b; transcript := transcript s;
     interimTranscript := interimTranscript s; error := error s;
     isSupported := isSupported s;
     finalTranscriptRef := finalTranscriptRef s;
     recognition_lang := recognition_lang s |}.

Definition setTranscript (t : string) (s : State) : State :=
  {| isListening := isListening s; transcript := t;
     interimTranscript := interimTranscript s; error := error s;
     isSupported := isSupported s;
     finalTranscriptRef := finalTranscriptRef s;
     recognition_lang := recognition_lang s |}.

Definition setInterimTranscript (t : string) (s : State) : State :=
  {| isListening := isListening s; transcript := transcript s;
     interimTranscript := t; error := error s;
     isSupported := isSupported s;
     finalTranscriptRef := finalTranscriptRef s;
     recognition_lang := recognition_lang s |}.

Definition setError (e : option string) (s : State) : State :=
  {| isListening := isListening s; transcript := transcript s;
     interimTranscript := interimTranscript s; error := e;
     isSupported := isSupported s;
     finalTranscriptRef := finalTranscriptRef s;
     recognition_lang := recognition_lang s |}.

Definition setFinalTranscriptRef (t : string) (s : State) : State :=
  {| isListening := isListening s; transcript := transcript s;
     interimTranscript := interimTranscript s; error := error s;
     isSupported := isSupported s;
     finalTranscriptRef := t;
     recognition_lang := recognition_lang s |}.

Definition setLang (l : string) (s : State) : State :=
  {| isListening := isListening s; transcript := transcript s;
     interimTranscript := interimTranscript s; error := error s;
     isSupported := isSupported s;
     finalTranscriptRef := finalTranscriptRef s;
     recognition_lang := l |}.

(** State after the mount effect, on a platform with ([supported]) or
    without a recognizer. *)
Definition mount (supported : bool) : State :=
  {| isListening := false; transcript := ""; interimTranscript := "";
     error :=
       if supported then None
       else Some "Speech recognition not supported in this browser. Please use Chrome, Edge, or Safari.";
     isSupported := supported;
     finalTranscriptRef := "";
     recognition_lang := "en-US" |}.

Definition onstart (s : State) : State :=
  setError None (setIsListening true s).

Definition onend (s : State) : State :=
  setIsListening false s.

(** The body of the [for] loop of [onresult], on the pair of local
    variables [(finalTranscript, interimTranscript)]. *)
Definition onresult_step (acc : string * string) (r : SpeechRecognitionResult)
  : string * string :=
  let '(finalTranscript, interimTranscript) := acc in
  if isFinal r
  then (finalTranscript +:+ result_transcript r, interimTranscript)
  else (finalTranscript, interimTranscript +:+ result_transcript r).

(** [for (let i = event.resultIndex; i < event.results.length; i++)] *)
Definition onresult_loop (event : SpeechRecognitionEvent) (acc : string * string)
  : string * string :=
  foldl onresult_step acc (drop (resultIndex event) (results event)).

Definition onresult (event : SpeechRecognitionEvent) (s : State) : State :=
  let '(finalTranscript, interimTranscript) :=
    onresult_loop event (finalTranscriptRef s, "") in
  setInterimTranscript interimTranscript
    (setTranscript finalTranscript
       (setFinalTranscriptRef finalTranscript s)).

Definition onerror (event_error : string) (s : State) : State :=
  let s := setError (Some event_error) s in
  let s := setIsListening false s in
  if String.eqb event_error "no-speech" then
    setError (Some "No speech detected. Please try again.") s
  else if String.eqb event_error "audio-capture" then
    setError (Some "Microphone access denied or not available.") s
  else if String.eqb event_error "not-allowed" then
    setError (Some "Microphone permission denied. Please allow microphone access.") s
  else if String.eqb event_error "network" then
    setError (Some "Network error. Please check your internet connection.") s
  else
    setError (Some ("Speech recognition error: " +:+ event_error)) s.

Definition onnomatch (s : State) : State :=
  setError (Some "Could not understand the speech. Please try again.") s.

(** [startListening(language)].  [start_throws] tells whether
    [recognition.start()] raises (it does when the recognizer is already
    running). *)
Definition startListening (language : string) (start_throws : bool) (s : State)
  : State :=
  if negb (isSupported s) then
    setError (Some "Speech recognition not supported") s
  else if isListening s then s
  else
    let s := setFinalTranscriptRef "" s in
    let s := setTranscript "" s in
    let s := setInterimTranscript "" s in
    let s := setError None s in
    let s := setLang language s in
    if start_throws
    then setError (Some "Failed to start speech recognition") s
    else s.

Definition resetTranscript (s : State) : State :=
  let s := setFinalTranscriptRef "" s in
  let s := setTranscript "" s in
  let s := setInterimTranscript "" s in
  setError None s.

(** A capture session's stream of result events, in arrival order. *)
Definition deliver (events : list SpeechRecognitionEvent) (s : State) : State :=
  foldl (λ s event, onresult event s) s events.

(** The segments an event delivers: the results from [resultIndex] on. *)
Definition segments (event : SpeechRecognitionEvent) : list SpeechRecognitionResult :=
  drop (resultIndex event) (results event).

Definition finalSegments (event : SpeechRecognitionEvent) : list string :=
  result_transcript <$> filter (λ r, isFinal r = true) (segments event).

Definition interimSegments (event : SpeechRecognitionEvent) : list string :=
  result_transcript <$> filter (λ r, isFinal r = false) (segments event).

(** Concatenation of a list of strings. *)
Definition concat (l : list string) : string :=
  foldr String.app "" l.

(** The displayed transcript agrees with the ref behind it. *)
Definition synced (s : State) : Prop := transcript s = finalTranscriptRef s.

(** *** The spec's ErrorKind (capture) *)

Inductive ErrorKind :=
| unsupported
| no_speech
| audio_capture_denied
| permission_denied
| network
| other (detail : string).

(** The fixed table of the spec, written from its words: platform error
    code to [ErrorKind]. *)
Definition errorTable (code : string) : ErrorKind :=
  if String.eqb code "no-speech" then no_speech
  else if String.eqb code "audio-capture" then audio_capture_denied
  else if String.eqb code "not-allowed" then permission_denied
  else if String.eqb code "network" then network
  else other code.

(** How the hook's [error] cell is read as an [ErrorKind]: the hook
    stores the message shown to the user, one fixed message per kind and
    a prefixed message carrying the platform code for [other]. *)
Definition kindOfMessage (msg : string) : ErrorKind :=
  if String.eqb msg "No speech detected. Please try again." then no_speech
  else if String.eqb msg "Microphone access denied or not available." then
    audio_capture_denied
  else if String.eqb msg "Microphone permission denied. Please allow microphone access." then
    permission_denied
  else if String.eqb msg "Network error. Please check your internet connection." then
    network
  else if String.eqb msg "Speech recognition not supported" then unsupported
  else if String.eqb msg "Speech recognition not supported in this browser. Please use Chrome, Edge, or Safari." then
    unsupported
  else if JsString.startsWith msg "Speech recognition error: " then
    other (JsString.drop 26 msg)
  else other msg.

Definition errorKind (s : State) : option ErrorKind :=
  kindOfMessage <$> error s.

End Recognition.

(** ** Completions and the monad of hook code

    A piece of hook code runs on a state and either completes normally
    or throws; for an [async] function a normal completion is a resolved
    promise and a throw a rejected one.  The state reached is kept in both
    cases, as the effects performed before a throw stay.

    A call is run from its first statement to its last with the outcome
    of each [await] supplied by the environment.  Which branch a call
    takes depends on those outcomes only, never on the hook's cells, so
    handlers that run while a call is suspended do not change its path. *)

Inductive Completion (A : Type) :=
| Normal (a : A)
| Throw (message : string).
Arguments Normal {A} a.
Arguments Throw {A} message.

Definition Js (S A : Type) : Type := S → Completion A * S.

Module JsMonad.

Definition ret {S A} (a : A) : Js S A := λ s, (Normal a, s).

Definition bind {S A B} (m : Js S A) (k : A → Js S B) : Js S B :=
  λ s, match m s with
       | (Normal a, s') => k a s'
       | (Throw e, s') => (Throw e, s')
       end.

Definition throw {S A} (message : string) : Js S A := λ s, (Throw message, s).

(** [try { body } catch (e) { handler(e) }] *)
Definition try_catch {S A} (body : Js S A) (handler : string → Js S A) : Js S A :=
  λ s, match body s with
       | (Normal a, s') => (Normal a, s')
       | (Throw e, s') => handler e s'
       end.

(** [await p] for a promise whose outcome is known. *)
Definition await {S A} (outcome : Completion A) : Js S A := λ s, (outcome, s).

Definition gets {S A} (f : S → A) : Js S A := λ s, (Normal (f s), s).
Definition modify {S} (f : S → S) : Js S unit := λ s, (Normal tt, f s).

(** The state a computation ends in, and how it completes. *)
Definition exec {S A} (m : Js S A) (s : S) : S := (m s).2.
Definition completion {S A} (m : Js S A) (s : S) : Completion A := (m s).1.

End JsMonad.

Notation "'let*' x := m 'in' k" := (JsMonad.bind m (λ x, k))
  (at level 10, x name, m at level 100, k at level 200).
Notation "m ;;; k" := (JsMonad.bind m (λ _, k))
  (at level 100, k at level 200, right associativity).

(** ** The browser objects the text-to-speech hooks use *)

Module Browser.

(** A [SpeechSynthesisVoice]. *)
Record Voice := {
  voice_name : string;
  voice_lang : string;
}.

(** A [SpeechSynthesisUtterance].  Its event handlers are closures of
    the hook that built it; [u_onerror] records whether an [onerror]
    handler was installed ([onend] always is). *)
Record Utterance := {
  u_text : string;
  u_lang : string;
  u_rate : Q;
  u_pitch : Q;
  u_volume : Q;
  u_voice : option Voice;
  u_onerror : bool;
}.

(** [new SpeechSynthesisUtterance(text)]: platform defaults, no voice
    chosen. *)
Definition newUtterance (text : string) : Utterance :=
  {| u_text := text; u_lang := ""; u_rate := 1; u_pitch := 1;
     u_volume := 1; u_voice := None; u_onerror := false |}.

Definition set_lang (l : string) (u : Utterance) : Utterance :=
  {| u_text := u_text u; u_lang := l; u_rate := u_rate u;
     u_pitch := u_pitch u; u_volume := u_volume u; u_voice := u_voice u;
     u_onerror := u_onerror u |}.
Definition set_rate (r : Q) (u : Utterance) : Utterance :=
  {| u_text := u_text u; u_lang := u_lang u; u_rate := r;
     u_pitch := u_pitch u; u_volume := u_volume u; u_voice := u_voice u;
     u_onerror := u_onerror u |}.
Definition set_pitch (r : Q) (u : Utterance) : Utterance :=
  {| u_text := u_text u; u_lang := u_lang u; u_rate := u_rate u;
     u_pitch := r; u_volume := u_volume u; u_voice := u_voice u;
     u_onerror := u_onerror u |}.
Definition set_volume (r : Q) (u : Utterance) : Utterance :=
  {| u_text := u_text u; u_lang := u_lang u; u_rate := u_rate u;
     u_pitch := u_pitch u; u_volume := r; u_voice := u_voice u;
     u_onerror := u_onerror u |}.
Definition set_voice (v : Voice) (u : Utterance) : Utterance :=
  {| u_text := u_text u; u_lang := u_lang u; u_rate := u_rate u;
     u_pitch := u_pitch u; u_volume := u_volume u; u_voice := Some v;
     u_onerror := u_onerror u |}.
Definition set_onerror (u : Utterance) : Utterance :=
  {| u_text := u_text u; u_lang := u_lang u; u_rate := u_rate u;
     u_pitch := u_pitch u; u_volume := u_volume u; u_voice := u_voice u;
     u_onerror := true |}.

(** [window.speechSynthesis]: the utterances spoken or waiting (the head
    is the one being spoken) and what [getVoices()] returns. *)
Record SpeechSynthesis := {
  queue : list Utterance;
  voices : list Voice;
}.

(** An [Audio] element: the object URL it plays and whether it is
    playing. *)
Record Audio := {
  audio_src : nat;
  audio_playing : bool;
}.

Record Platform := {
  (** every Audio element constructed so far; an element is named by its
      position *)
  audios : list Audio;
  (** the object URLs registered and not revoked *)
  objectURLs : gset nat;
  (** how many object URLs were handed out *)
  urlCount : nat;
  (** [window.speechSynthesis], [None] when the property is absent *)
  speechSynthesis : option SpeechSynthesis;
}.

Definition set_audios (l : list Audio) (p : Platform) : Platform :=
  {| audios := l; objectURLs := objectURLs p; urlCount := urlCount p;
     speechSynthesis := speechSynthesis p |}.

Definition set_speechSynthesis (ss : option SpeechSynthesis) (p : Platform) : Platform :=
  {| audios := audios p; objectURLs := objectURLs p; urlCount := urlCount p;
     speechSynthesis := ss |}.

(** [URL.createObjectURL(blob)]: a URL never handed out before. *)
Definition createObjectURL (p : Platform) : nat * Platform :=
  (urlCount p,
   {| audios := audios p; objectURLs := {[urlCount p]} ∪ objectURLs p;
      urlCount := S (urlCount p); speechSynthesis := speechSynthesis p |}).

(** [URL.revokeObjectURL(url)] *)
Definition revokeObjectURL (url : nat) (p : Platform) : Platform :=
  {| audios := audios p; objectURLs := objectURLs p ∖ {[url]};
     urlCount := urlCount p; speechSynthesis := speechSynthesis p |}.

(** [new Audio(url)]: a new element, not playing yet. *)
Definition newAudio (url : nat) (p : Platform) : nat * Platform :=
  (length (audios p),
   set_audios (audios p ++ [{| audio_src := url; audio_playing := false |}]) p).

Definition set_playing (b : bool) (a : Audio) : Audio :=
  {| audio_src := audio_src a; audio_playing := b |}.

Definition update_audio (audio : nat) (f : Audio → Audio) (p : Platform) : Platform :=
  match audios p !! audio with
  | Some a => set_audios (<[audio := f a]> (audios p)) p
  | None => p
  end.

(** [audio.play()] when playback starts, [audio.pause()], and the
    element stopping by itself (end of the media, or a media error). *)
Definition startPlayback (audio : nat) : Platform → Platform :=
  update_audio audio (set_playing true).
Definition pause (audio : nat) : Platform → Platform :=
  update_audio audio (set_playing false).
Definition endPlayback (audio : nat) : Platform → Platform :=
  update_audio audio (set_playing false).

(** [speechSynthesis.speak(utterance)]: the utterance joins the queue. *)
Definition synth_speak (u : Utterance) (p : Platform) : Platform :=
  match speechSynthesis p with
  | Some ss =>
      set_speechSynthesis
        (Some {| queue := queue ss ++ [u]; voices := voices ss |}) p
  | None => p
  end.

(** [speechSynthesis.cancel()]: the queue is emptied. *)
Definition synth_cancel (p : Platform) : Platform :=
  match speechSynthesis p with
  | Some ss =>
      set_speechSynthesis (Some {| queue := []; voices := voices ss |}) p
  | None => p
  end.

(** The platform is done with the utterance at the head of the queue. *)
Definition synth_finish (p : Platform) : Platform :=
  match speechSynthesis p with
  | Some ss =>
      set_speechSynthesis
        (Some {| queue := tail (queue ss); voices := voices ss |}) p
  | None => p
  end.

(** ['speechSynthesis' in window] *)
Definition speechSynthesis_in_window (p : Platform) : bool :=
  match speechSynthesis p with Some _ => true | None => false end.

(** [speechSynthesis.getVoices()] *)
Definition getVoices (p : Platform) : list Voice :=
  match speechSynthesis p with Some ss => voices ss | None => [] end.

(** The utterances spoken or waiting to be spoken. *)
Definition pendingUtterances (p : Platform) : list Utterance :=
  match speechSynthesis p with Some ss => queue ss | None => [] end.

(** Whether the Audio element of that name is playing. *)
Definition isPlaying (p : Platform) (audio : nat) : bool :=
  match audios p !! audio with
  | Some a => audio_playing a
  | None => false
  end.

(** The number of active audio and synthesis resources: Audio elements
    playing plus utterances spoken or queued. *)
Definition activeResources (p : Platform) : nat :=
  length (filter (λ a, audio_playing a = true) (audios p))
  + length (pendingUtterances p).

(** A freshly loaded page with ([Some voices]) or without ([None])
    speech synthesis. *)
Definition freshPage (synthesis : option (list Voice)) : Platform :=
  {| audios := []; objectURLs := ∅; urlCount := 0;
     speechSynthesis := (λ vs, {| queue := []; voices := vs |}) <$> synthesis |}.

(** *** What one [speak] call observes of the outside world *)

(** The parsed JSON body of the backend's answer; [audio_content] is
    [None] when the property is absent. *)
Record Body := {
  audio_content : option string;
}.

(** An HTTP response: [response.ok] and the outcome of
    [response.json()]. *)
Record Response := {
  ok : bool;
  json : Completion Body;
}.

Record Env := {
  (** outcome of the POST to /api/text-to-speech; a throw is a network
      failure *)
  fetch : Completion Response;
  (** [atob]: [None] when the argument is not valid base64 *)
  atob : string → option string;
  (** outcome of [audio.play()] *)
  play : Completion unit;
}.

(** JavaScript truthiness of [result.audio_content]. *)
Definition truthy (v : option string) : bool :=
  match v with
  | Some s => negb (String.eqb s "")
  | None => false
  end.

End Browser.

(** ** useEnhancedTextToSpeech (hooks/useWebSpeechAPI.js) *)

Module Enhanced.
Import JsMonad Browser.

(** The hook's cells ([isSpeaking], [error], [audioRef.current]) and
    the browser it runs in. *)
Record State := {
  isSpeaking : bool;
  error : option string;
  audioRef : option nat;
  platform : Platform;
}.

Definition mount (p : Platform) : State :=
  {| isSpeaking := false; error := None; audioRef := None; platform := p |}.

Definition setIsSpeaking (b : bool) : Js State unit :=
  modify (λ s, {| isSpeaking := b; error := error s;
                  audioRef := audioRef s; platform := platform s |}).

Definition setError (e : option string) : Js State unit :=
  modify (λ s, {| isSpeaking := isSpeaking s; error := e;
                  audioRef := audioRef s; platform := platform s |}).

Definition setAudioRef (r : option nat) : Js State unit :=
  modify (λ s, {| isSpeaking := isSpeaking s; error := error s;
                  audioRef := r; platform := platform s |}).

Definition set_platform (p : Platform) (s : State) : State :=
  {| isSpeaking := isSpeaking s; error := error s;
     audioRef := audioRef s; platform := p |}.

(** A platform call that returns nothing, and one that returns a value. *)
Definition onPlatform (f : Platform → Platform) : Js State unit :=
  modify (λ s, set_platform (f (platform s)) s).

Definition fromPlatform {A} (f : Platform → A * Platform) : Js State A :=
  λ s, let '(a, p) := f (platform s) in (Normal a, set_platform p s).

(** The [options] argument: every property may be absent. *)
Record Options := {
  languageCode : option string;
  rate : option Q;
  pitch : option Q;
  volume : option Q;
  useBackend : option bool;
}.

(** [{}] *)
Definition noOptions : Options :=
  {| languageCode := None; rate := None; pitch := None; volume := None;
     useBackend := None |}.

(** The five bindings the destructuring of [options] introduces. *)
Record Bindings := {
  b_languageCode : string;
  b_rate : Q;
  b_pitch : Q;
  b_volume : Q;
  b_useBackend : bool;
}.

(** [(text, options = {}) => { const { languageCode = 'en-US', rate =
    0.8, pitch = 1.0, volume = 1.0, useBackend = true } = options; ...]:
    [None] is a call without the second argument. *)
Definition destructure (options : option Options) : Bindings :=
  let options := default noOptions options in
  {| b_languageCode := default "en-US" (languageCode options);
     b_rate := default 0.8%Q (rate options);
     b_pitch := default 1%Q (pitch options);
     b_volume := default 1%Q (volume options);
     b_useBackend := default true (useBackend options) |}.

(** Handlers installed on the Audio element; [audioUrl] is the object
    URL the closure captured. *)
Definition audio_onended (audioUrl : nat) : Js State unit :=
  setIsSpeaking false ;;;
  onPlatform (revokeObjectURL audioUrl).

Definition audio_onerror (audioUrl : nat) : Js State unit :=
  setIsSpeaking false ;;;
  onPlatform (revokeObjectURL audioUrl) ;;;
  throw "Failed to play backend audio".

(** Handlers installed on the utterance. *)
Definition utterance_onend : Js State unit :=
  setIsSpeaking false.

Definition utterance_onerror (event_error : string) : Js State unit :=
  setIsSpeaking false ;;;
  setError (Some ("TTS Error: " +:+ event_error)).

(** The voice looked up for the utterance. *)
Definition preferredVoice (voices : list Voice) (languageCode : string)
  : option Voice :=
  match
    JsString.find
      (λ voice, JsString.startsWith (voice_lang voice)
                  (JsString.substring languageCode 0 2)
                && JsString.includes (voice_name voice) "Google")
      voices
  with
  | Some voice => Some voice
  | None =>
      JsString.find
        (λ voice, JsString.startsWith (voice_lang voice)
                    (JsString.substring languageCode 0 2))
        voices
  end.

(** The backend attempt, the body of the inner [try].  The result says
    whether the function returned from inside it ([return; // Success
    with backend TTS]). *)
Definition backendTTS (env : Env) : Js State bool :=
  let* response := await (fetch env) in
  if ok response then
    let* result := await (json response) in
    if truthy (audio_content result) then
      let* _ :=
        match atob env (default "" (audio_content result)) with
        | Some bytes => ret bytes
        | None => throw "InvalidCharacterError"
        end in
      let* audioUrl := fromPlatform createObjectURL in
      let* audio := fromPlatform (newAudio audioUrl) in
      setAudioRef (Some audio) ;;;
      (let* _ := await (play env) in onPlatform (startPlayback audio)) ;;;
      ret true
    else ret false
  else ret false.

(** The browser fallback. *)
Definition browserTTS (text : string) (b : Bindings) : Js State unit :=
  let* supported := gets (λ s, speechSynthesis_in_window (platform s)) in
  if supported then
    let utterance := newUtterance text in
    let utterance := set_lang (b_languageCode b) utterance in
    let utterance := set_rate (b_rate b) utterance in
    let utterance := set_pitch (b_pitch b) utterance in
    let utterance := set_volume (b_volume b) utterance in
    let utterance := set_onerror utterance in
    let* voices := gets (λ s, getVoices (platform s)) in
    let utterance :=
      match preferredVoice voices (b_languageCode b) with
      | Some voice => set_voice voice utterance
      | None => utterance
      end in
    onPlatform (synth_speak utterance)
  else throw "Text-to-speech not supported in this browser".

Definition speak (env : Env) (text : string) (options : option Options)
  : Js State unit :=
  let b := destructure options in
  try_catch
    (setIsSpeaking true ;;;
     setError None ;;;
     let* returned :=
       if b_useBackend b
       then try_catch (backendTTS env) (λ backendError, ret false)
       else ret false in
     if returned then ret tt else browserTTS text b)
    (λ error_message,
       setError (Some error_message) ;;;
       setIsSpeaking false).

Definition stopSpeaking : Js State unit :=
  let* current := gets audioRef in
  match current with
  | Some audio => onPlatform (pause audio) ;;; setAudioRef None
  | None => ret tt
  end ;;;
  let* supported := gets (λ s, speechSynthesis_in_window (platform s)) in
  (if supported then onPlatform synth_cancel else ret tt) ;;;
  setIsSpeaking false.

Definition getAvailableVoices : Js State (list Voice) :=
  gets (λ s, getVoices (platform s)).

(** *** The second argument as a caller passes it *)

(** What a caller can put in the place of [options]: nothing (or
    [undefined]), [null], an object, or a number, string or boolean,
    which has none of the five properties. *)
Inductive Argument :=
| ArgUndefined
| ArgNull
| ArgObject (options : Options)
| ArgPrimitive.

(** [speak(text, options)] from its first line.  The parameter default
    [options = {}] stands in for a missing or [undefined] argument
    only.  The destructuring is the first statement of the function and
    stands before the [try]: on [null] it throws a TypeError that no
    handler of the function catches, so the promise is rejected with
    nothing recorded.  On a primitive it finds no property and every
    default applies. *)
Definition speak_from (env : Env) (text : string) (argument : Argument)
  : Js State unit :=
  match argument with
  | ArgUndefined => speak env text None
  | ArgNull => throw "TypeError"
  | ArgObject options => speak env text (Some options)
  | ArgPrimitive => speak env text (Some noOptions)
  end.

(** *** Events the browser delivers to the hook *)

(** The Audio element [audio] played to its end: [onended] runs. *)
Definition audio_ended (audio : nat) : Js State unit :=
  let* element := gets (λ s, audios (platform s) !! audio) in
  match element with
  | Some a => onPlatform (endPlayback audio) ;;; audio_onended (audio_src a)
  | None => ret tt
  end.

(** The Audio element [audio] failed: [onerror] runs. *)
Definition audio_failed (audio : nat) : Js State unit :=
  let* element := gets (λ s, audios (platform s) !! audio) in
  match element with
  | Some a => onPlatform (endPlayback audio) ;;; audio_onerror (audio_src a)
  | None => ret tt
  end.

(** The utterance at the head of the queue was spoken to its end. *)
Definition utterance_ended : Js State unit :=
  let* pending := gets (λ s, pendingUtterances (platform s)) in
  match pending with
  | _ :: _ => onPlatform synth_finish ;;; utterance_onend
  | [] => ret tt
  end.

(** The utterance at the head of the queue failed with [event_error]. *)
Definition utterance_failed (event_error : string) : Js State unit :=
  let* pending := gets (λ s, pendingUtterances (platform s)) in
  match pending with
  | _ :: _ => onPlatform synth_finish ;;; utterance_onerror event_error
  | [] => ret tt
  end.

End Enhanced.

(** ** useTextToSpeech (hooks/useSpeechRecognition.js) *)

Module Legacy.
Import JsMonad Browser.

(** The hook's cells ([isSpeaking], [audioRef.current]) and the browser
    it runs in.  This hook has no error cell. *)
Record State := {
  isSpeaking : bool;
  audioRef : option nat;
  platform : Platform;
}.

Definition mount (p : Platform) : State :=
  {| isSpeaking := false; audioRef := None; platform := p |}.

Definition setIsSpeaking (b : bool) : Js State unit :=
  modify (λ s, {| isSpeaking := b; audioRef := audioRef s;
                  platform := platform s |}).

Definition setAudioRef (r : option nat) : Js State unit :=
  modify (λ s, {| isSpeaking := isSpeaking s; audioRef := r;
                  platform := platform s |}).

Definition set_platform (p : Platform) (s : State) : State :=
  {| isSpeaking := isSpeaking s; audioRef := audioRef s; platform := p |}.

Definition onPlatform (f : Platform → Platform) : Js State unit :=
  modify (λ s, set_platform (f (platform s)) s).

Definition fromPlatform {A} (f : Platform → A * Platform) : Js State A :=
  λ s, let '(a, p) := f (platform s) in (Normal a, set_platform p s).

(** [apiService.textToSpeech] of services/api.js: [api.post(...)], then
    [response.data].  The axios instance is created with its defaults,
    so the request promise rejects on a network failure and on a status
    outside 2xx, and a body that is not JSON is handed over unparsed
    (it has no [audio_content] property then). *)
Definition textToSpeech (env : Env) : Js State Body :=
  let* response := await (fetch env) in
  if ok response then
    match json response with
    | Normal data => ret data
    | Throw _ => ret {| audio_content := None |}
    end
  else throw "Request failed".

Definition audio_onended (audioUrl : nat) : Js State unit :=
  setIsSpeaking false ;;;
  onPlatform (revokeObjectURL audioUrl).

Definition audio_onerror (audioUrl : nat) : Js State unit :=
  setIsSpeaking false ;;;
  onPlatform (revokeObjectURL audioUrl).

(** [() => setIsSpeaking(false)], the handler of both utterance events. *)
Definition utterance_handler : Js State unit :=
  setIsSpeaking false.

(** [speak(text, languageCode = 'en-US')]: [None] is a call with one
    argument. *)
Definition speak (env : Env) (text : string) (languageCode : option string)
  : Js State unit :=
  let languageCode := default "en-US" languageCode in
  try_catch
    (setIsSpeaking true ;;;
     let* result := textToSpeech env in
     if truthy (audio_content result) then
       let* _ :=
         match atob env (default "" (audio_content result)) with
         | Some bytes => ret bytes
         | None => throw "InvalidCharacterError"
         end in
       let* audioUrl := fromPlatform createObjectURL in
       let* audio := fromPlatform (newAudio audioUrl) in
       setAudioRef (Some audio) ;;;
       let* _ := await (play env) in
       onPlatform (startPlayback audio)
     else
       let* supported := gets (λ s, speechSynthesis_in_window (platform s)) in
       if supported then
         let utterance := newUtterance text in
         let utterance := set_lang languageCode utterance in
         let utterance := set_rate 0.8%Q utterance in
         let utterance := set_onerror utterance in
         onPlatform (synth_speak utterance)
       else setIsSpeaking false)
    (λ error_message,
       setIsSpeaking false ;;;
       let* supported := gets (λ s, speechSynthesis_in_window (platform s)) in
       if supported then
         let utterance := newUtterance text in
         let utterance := set_lang languageCode utterance in
         let utterance := set_rate 0.8%Q utterance in
         onPlatform (synth_speak utterance)
       else ret tt).

Definition stopSpeaking : Js State unit :=
  let* current := gets audioRef in
  match current with
  | Some audio => onPlatform (pause audio) ;;; setAudioRef None
  | None => ret tt
  end ;;;
  let* supported := gets (λ s, speechSynthesis_in_window (platform s)) in
  (if supported then onPlatform synth_cancel else ret tt) ;;;
  setIsSpeaking false.

(** *** Events the browser delivers to the hook *)

Definition audio_ended (audio : nat) : Js State unit :=
  let* element := gets (λ s, audios (platform s) !! audio) in
  match element with
  | Some a => onPlatform (endPlayback audio) ;;; audio_onended (audio_src a)
  | None => ret tt
  end.

Definition audio_failed (audio : nat) : Js State unit :=
  let* element := gets (λ s, audios (platform s) !! audio) in
  match element with
  | Some a => onPlatform (endPlayback audio) ;;; audio_onerror (audio_src a)
  | None => ret tt
  end.

Definition utterance_ended : Js State unit :=
  let* pending := gets (λ s, pendingUtterances (platform s)) in
  match pending with
  | _ :: _ => onPlatform synth_finish ;;; utterance_handler
  | [] => ret tt
  end.

(** An utterance built in the [catch] branch has no [onerror] handler. *)
Definition utterance_failed : Js State unit :=
  let* pending := gets (λ s, pendingUtterances (platform s)) in
  match pending with
  | u :: _ =>
      onPlatform synth_finish ;;;
      if u_onerror u then utterance_handler else ret tt
  | [] => ret tt
  end.

End Legacy.

(** ** Sample runs *)

Module Samples.
Import JsMonad Browser.

Definition googleUS : Voice :=
  {| voice_name := "Google US English"; voice_lang := "en-US" |}.
Definition samantha : Voice :=
  {| voice_name := "Samantha"; voice_lang := "en-US" |}.
Definition monica : Voice :=
  {| voice_name := "Monica"; voice_lang := "es-ES" |}.

(** A backend that answers with audio which then plays. *)
Definition backendPlays : Env :=
  {| fetch := Normal {| ok := true;
                        json := Normal {| audio_content := Some "SGk=" |} |};
     atob := λ s, Some s;
     play := Normal tt |}.

(** A backend that cannot be reached. *)
Definition backendDown : Env :=
  {| fetch := Throw "Failed to fetch";
     atob := λ s, Some s;
     play := Normal tt |}.

(** A backend that answers with audio the browser refuses to play. *)
Definition backendUnplayable : Env :=
  {| fetch := Normal {| ok := true;
                        json := Normal {| audio_content := Some "SGk=" |} |};
     atob := λ s, Some s;
     play := Throw "NotAllowedError" |}.

(** A backend that answers with a server error. *)
Definition backendError : Env :=
  {| fetch := Normal {| ok := false; json := Throw "Unexpected token" |};
     atob := λ s, Some s;
     play := Normal tt |}.

Definition page : Platform := freshPage (Some [samantha; monica; googleUS]).
Definition pageWithoutSynthesis : Platform := freshPage None.

(** Two calls in a row, the second while the first is still active:
    with backend audio in each hook, and with local synthesis. *)
Definition afterOne : Enhanced.State :=
  exec (Enhanced.speak backendPlays "one" None) (Enhanced.mount page).
Definition afterTwo : Enhanced.State :=
  exec (Enhanced.speak backendPlays "two" None) afterOne.
Definition legacyAfterOne : Legacy.State :=
  exec (Legacy.speak backendPlays "one" None) (Legacy.mount page).
Definition legacyAfterTwo : Legacy.State :=
  exec (Legacy.speak backendPlays "two" None) legacyAfterOne.
Definition queuedOne : Enhanced.State :=
  exec (Enhanced.speak backendDown "one" None) (Enhanced.mount page).
Definition queuedTwo : Enhanced.State :=
  exec (Enhanced.speak backendDown "two" None) queuedOne.

(** One call whose backend audio has played to its end. *)
Definition afterPlayedOut : Enhanced.State :=
  exec (Enhanced.audio_ended 0) afterOne.

(** Backend audio that the browser refuses to play, then the fallback
    utterance spoken to its end. *)
Definition afterRefusedPlay : Enhanced.State :=
  exec Enhanced.utterance_ended
    (exec (Enhanced.speak backendUnplayable "Hi" None) (Enhanced.mount page)).

(** A recognition event carrying one segment. *)
Definition update (text : string) (final : bool)
  : Recognition.SpeechRecognitionEvent :=
  {| Recognition.resultIndex := 0;
     Recognition.results :=
       [{| Recognition.result_transcript := text;
           Recognition.isFinal := final |}] |}.

(** The scenario of the spec: a session that hears interim "hel",
    interim "hello wor" and final "hello world", and one more interim
    update after that. *)
Definition session : Recognition.State :=
  Recognition.startListening "en-US" false (Recognition.mount true).
Definition helloWorld : list Recognition.SpeechRecognitionEvent :=
  [update "hel" false; update "hello wor" false; update "hello world" true].
Definition afterwards : list Recognition.SpeechRecognitionEvent :=
  [update "hello world how" false].

End Samples.

(** ** Vocabulary of the specification *)

Module Spec.
Import Browser.

(** The backend render fails: the request does not come back (network
    failure), comes back with a non-success status, or comes back with
    a body that cannot be read or has no audio in [audio_content]. *)
Definition renderFails (env : Env) : bool :=
  match fetch env with
  | Throw _ => true
  | Normal response =>
      negb (ok response)
      || match json response with
         | Throw _ => true
         | Normal body => negb (truthy (audio_content body))
         end
  end.

(** The backend path does not deliver: the render fails, or the audio
    it returned cannot be decoded, or the browser refuses to play it.
    In each case the call goes on to local synthesis. *)
Definition backendGivesUp (env : Env) : bool :=
  renderFails env
  || match fetch env with
     | Throw _ => false
     | Normal response =>
         match json response with
         | Throw _ => false
         | Normal body =>
             match audio_content body with
             | None => false
             | Some encoded =>
                 match atob env encoded, play env with
                 | Some _, Normal _ => false
                 | _, _ => true
                 end
             end
         end
     end.

(** [prefix] is the first two characters of [tag]: it is how [tag]
    begins and it is two characters long, or all of [tag] when [tag] is
    shorter than that. *)
Definition firstTwoCharacters (tag prefix : string) : Prop :=
  (∃ rest, tag = prefix +:+ rest)
  ∧ (String.length prefix = 2
     ∨ (String.length tag < 2)%nat ∧ prefix = tag).

(** The voice's locale starts with the first two characters of the
    requested language tag. *)
Definition localeMatches (languageCode : string) (v : Voice) : Prop :=
  ∃ prefix rest,
    firstTwoCharacters languageCode prefix
    ∧ voice_lang v = prefix +:+ rest.

(** The voice's name signals higher quality: it mentions Google. *)
Definition higherQuality (v : Voice) : Prop :=
  ∃ before after, voice_name v = before +:+ "Google" +:+ after.

(** The voice selection policy, in the words of the spec: the first
    voice of matching locale and higher quality, else the first voice of
    matching locale, else no voice (the utterance keeps the platform
    default). *)
Inductive selects (voices : list Voice) (languageCode : string)
  : option Voice → Prop :=
| select_preferred before v after :
    voices = before ++ v :: after →
    localeMatches languageCode v → higherQuality v →
    Forall (λ w, ¬ (localeMatches languageCode w ∧ higherQuality w)) before →
    selects voices languageCode (Some v)
| select_matching before v after :
    Forall (λ w, ¬ (localeMatches languageCode w ∧ higherQuality w)) voices →
    voices = before ++ v :: after →
    localeMatches languageCode v →
    Forall (λ w, ¬ localeMatches languageCode w) before →
    selects voices languageCode (Some v)
| select_default :
    Forall (λ w, ¬ localeMatches languageCode w) voices →
    selects voices languageCode None.

End Spec.

(** ** The capture hook over time *)

Module Capture.
Import Recognition.

(** [stopListening()]: whether [recognition.stop()] is called.  The hook
    writes no cell; [recognitionRef.current] is set exactly when the
    platform has a recognizer. *)
Definition stopListening (s : State) : bool :=
  isSupported s && isListening s.

(** The hook's cells together with the recognizer object: [started]
    says that [start()] was called and neither an end nor an error event
    has fired since, in which case another [start()] throws. *)
Record Session := {
  cells : State;
  started : bool;
}.

(** What can happen to a mounted hook: the three functions it returns
    and the five events of the recognizer. *)
Inductive Action :=
| StartListening (language : string)
| StopListening
| ResetTranscript
| OnStart
| OnEnd
| OnResult (event : SpeechRecognitionEvent)
| OnError (code : string)
| OnNoMatch.

Definition step (a : Action) (r : Session) : Session :=
  match a with
  | StartListening language =>
      {| cells := startListening language (started r) (cells r);
         started :=
           started r || (isSupported (cells r) && negb (isListening (cells r))) |}
  | StopListening => r
  | ResetTranscript =>
      {| cells := resetTranscript (cells r); started := started r |}
  | OnStart => {| cells := onstart (cells r); started := started r |}
  | OnEnd => {| cells := onend (cells r); started := false |}
  | OnResult event =>
      {| cells := onresult event (cells r); started := started r |}
  | OnError code => {| cells := onerror code (cells r); started := false |}
  | OnNoMatch => {| cells := onnomatch (cells r); started := started r |}
  end.

Definition run (actions : list Action) (r : Session) : Session :=
  foldl (λ r a, step a r) r actions.

Definition mounted (supported : bool) : Session :=
  {| cells := mount supported; started := false |}.

(** The recognizer's events, as opposed to calls of the hook's functions. *)
Definition isEvent (a : Action) : bool :=
  match a with
  | OnStart | OnEnd | OnResult _ | OnError _ | OnNoMatch => true
  | StartListening _ | StopListening | ResetTranscript => false
  end.

(** The final segments an action delivers. *)
Definition finalsOf (a : Action) : list string :=
  match a with
  | OnResult event => finalSegments event
  | _ => []
  end.

End Capture.

(** ** useVoiceInteraction (hooks/useWebSpeechAPI.js) *)

Module VoiceInteraction.
Import JsMonad.

Record State := {
  speechRecognition : Capture.Session;
  textToSpeech : Enhanced.State;
  isVoiceMode : bool;
}.

(** [setIsVoiceMode(true); speechRecognition.startListening();] *)
Definition startVoiceConversation (v : State) : State :=
  {| speechRecognition :=
       Capture.step (Capture.StartListening "en-US") (speechRecognition v);
     textToSpeech := textToSpeech v;
     isVoiceMode := true |}.

(** [setIsVoiceMode(false); speechRecognition.stopListening();
    textToSpeech.stopSpeaking();] *)
Definition endVoiceConversation (v : State) : State :=
  {| speechRecognition :=
       Capture.step Capture.StopListening (speechRecognition v);
     textToSpeech := exec Enhanced.stopSpeaking (textToSpeech v);
     isVoiceMode := false |}.

Definition processVoiceMessage (transcript : string) : Completion string :=
  Normal transcript.

(** The values found in the objects the hooks return. *)
Inductive JsValue :=
| VBoolean (b : bool)
| VString (s : string)
| VNull
| VFunction (name : string).

Definition ofError (e : option string) : JsValue :=
  match e with
  | Some message => VString message
  | None => VNull
  end.

(** The object [useWebSpeechRecognition] returns. *)
Definition recognitionResult (s : Recognition.State) : gmap string JsValue :=
  list_to_map
    [("isListening", VBoolean (Recognition.isListening s));
     ("transcript", VString (Recognition.transcript s));
     ("interimTranscript", VString (Recognition.interimTranscript s));
     ("error", ofError (Recognition.error s));
     ("isSupported", VBoolean (Recognition.isSupported s));
     ("startListening", VFunction "startListening");
     ("stopListening", VFunction "stopListening");
     ("resetTranscript", VFunction "resetTranscript")].

(** The object [useEnhancedTextToSpeech] returns. *)
Definition textToSpeechResult (s : Enhanced.State) : gmap string JsValue :=
  list_to_map
    [("isSpeaking", VBoolean (Enhanced.isSpeaking s));
     ("error", ofError (Enhanced.error s));
     ("speak", VFunction "speak");
     ("stopSpeaking", VFunction "stopSpeaking");
     ("getAvailableVoices", VFunction "getAvailableVoices")].

(** [{ ...a, ...b }]: the properties of [b] replace those of [a]. *)
Definition spread (a b : gmap string JsValue) : gmap string JsValue := b ∪ a.

(** The object [useVoiceInteraction] returns:
    [{ ...speechRecognition, ...textToSpeech, isVoiceMode,
       startVoiceConversation, endVoiceConversation, processVoiceMessage }]. *)
Definition result (v : State) : gmap string JsValue :=
  <["processVoiceMessage" := VFunction "processVoiceMessage"]>
    (<["endVoiceConversation" := VFunction "endVoiceConversation"]>
       (<["startVoiceConversation" := VFunction "startVoiceConversation"]>
          (<["isVoiceMode" := VBoolean (isVoiceMode v)]>
             (spread
                (recognitionResult (Capture.cells (speechRecognition v)))
                (textToSpeechResult (textToSpeech v)))))).

End VoiceInteraction.

(** ** The components that call the text-to-speech hooks *)

Module Callers.
Import JsMonad Browser.

(** [{ ...base, ...over }] on option objects: a property of [over] that
    is present replaces the one of [base]. *)
Definition spread (base over : Enhanced.Options) : Enhanced.Options :=
  {| Enhanced.languageCode :=
       match Enhanced.languageCode over with
       | Some x => Some x | None => Enhanced.languageCode base end;
     Enhanced.rate :=
       match Enhanced.rate over with
       | Some x => Some x | None => Enhanced.rate base end;
     Enhanced.pitch :=
       match Enhanced.pitch over with
       | Some x => Some x | None => Enhanced.pitch base end;
     Enhanced.volume :=
       match Enhanced.volume over with
       | Some x => Some x | None => Enhanced.volume base end;
     Enhanced.useBackend :=
       match Enhanced.useBackend over with
       | Some x => Some x | None => Enhanced.useBackend base end |}.

(** [useSpeakText().speakText] (components/VoiceInteraction.jsx):
    [speak(text, { languageCode: 'en-US', rate: 0.8, useBackend: true,
    ...options })] with [options = {}] by default. *)
Definition speakText (env : Env) (text : string)
    (options : option Enhanced.Options) : Js Enhanced.State unit :=
  Enhanced.speak env text
    (Some (spread
             {| Enhanced.languageCode := Some "en-US";
                Enhanced.rate := Some 0.8%Q;
                Enhanced.pitch := None;
                Enhanced.volume := None;
                Enhanced.useBackend := Some true |}
             (default Enhanced.noOptions options))).

(** [speakText] of the VoiceInteraction component:
    [(text, languageCode = language) =>
       speak(text, { languageCode, rate: 0.8, useBackend: true })];
    [language] is the component's selected language. *)
Definition panelSpeakText (language : string) (env : Env) (text : string)
    (languageCode : option string) : Js Enhanced.State unit :=
  Enhanced.speak env text
    (Some {| Enhanced.languageCode := Some (default language languageCode);
             Enhanced.rate := Some 0.8%Q;
             Enhanced.pitch := None;
             Enhanced.volume := None;
             Enhanced.useBackend := Some true |}).

(** A chat message, as far as [handleSpeakMessage] reads it. *)
Record Message := {
  encouragement : option string;
  content : string;
}.

(** [a || b] for an optional string [a]. *)
Definition orElse (a : option string) (b : string) : string :=
  if truthy a then default "" a else b.

(** [handleSpeakMessage] of App.jsx, on the older hook. *)
Definition handleSpeakMessage (env : Env) (message : Message)
  : Js Legacy.State unit :=
  let* speaking := gets Legacy.isSpeaking in
  if speaking then Legacy.stopSpeaking
  else Legacy.speak env (orElse (encouragement message) (content message)) None.

(** [handleSpeak] of VocabularyPanel.jsx, on the older hook;
    [pronunciation = null] by default. *)
Definition handleSpeak (env : Env) (word : string) (pronunciation : option string)
  : Js Legacy.State unit :=
  let* speaking := gets Legacy.isSpeaking in
  if speaking then Legacy.stopSpeaking
  else
    let textToSpeak :=
      if truthy pronunciation
      then word +:+ ". Pronunciation: " +:+ default "" pronunciation
      else word in
    Legacy.speak env textToSpeak None.

End Callers.

(** ** The enhanced hook over time *)

Module EnhancedTrace.
Import JsMonad Browser.

(** What can happen to a mounted hook: calls of [speak] and
    [stopSpeaking], and the events of Audio elements and utterances. *)
Inductive Action :=
| Speak (env : Env) (text : string) (options : option Enhanced.Options)
| StopSpeaking
| AudioEnded (audio : nat)
| AudioFailed (audio : nat)
| UtteranceEnded
| UtteranceFailed (code : string).

Definition step (a : Action) (s : Enhanced.State) : Enhanced.State :=
  match a with
  | Speak env text options => exec (Enhanced.speak env text options) s
  | StopSpeaking => exec Enhanced.stopSpeaking s
  | AudioEnded audio => exec (Enhanced.audio_ended audio) s
  | AudioFailed audio => exec (Enhanced.audio_failed audio) s
  | UtteranceEnded => exec Enhanced.utterance_ended s
  | UtteranceFailed code => exec (Enhanced.utterance_failed code) s
  end.

Definition run (actions : list Action) (s : Enhanced.State) : Enhanced.State :=
  foldl (λ s a, step a s) s actions.

(** The bookkeeping of the browser and the hook's handle agree: the
    handle names an existing element, URLs and elements only use URLs
    that were handed out, no two elements share a URL, and the URL of a
    playing element is registered. *)
Definition consistent (held : option nat) (elements : list Audio)
    (urls : gset nat) (count : nat) : Prop :=
  (∀ audio, held = Some audio → audio < length elements)
  ∧ (∀ url, url ∈ urls → url < count)
  ∧ Forall (λ a, audio_src a < count) elements
  ∧ NoDup (audio_src <$> elements)
  ∧ Forall (λ a, audio_playing a = true → audio_src a ∈ urls) elements.

Definition wellFormed (s : Enhanced.State) : Prop :=
  consistent (Enhanced.audioRef s) (audios (Enhanced.platform s))
    (objectURLs (Enhanced.platform s)) (urlCount (Enhanced.platform s)).

(** The backend branch runs to its [return]: the request succeeds, the
    body carries audio that decodes, and playback starts. *)
Definition backendAudioPlays (env : Env) : bool :=
  match fetch env with
  | Normal response =>
      ok response
      && match json response with
         | Normal body =>
             truthy (audio_content body)
             && bool_decide (is_Some (atob env (default "" (audio_content body))))
             && match play env with Normal _ => true | Throw _ => false end
         | Throw _ => false
         end
  | Throw _ => false
  end.

(** The backend branch gets as far as [audio.play()], which is refused. *)
Definition backendAudioRefused (env : Env) : bool :=
  match fetch env with
  | Normal response =>
      ok response
      && match json response with
         | Normal body =>
             truthy (audio_content body)
             && bool_decide (is_Some (atob env (default "" (audio_content body))))
             && match play env with Normal _ => false | Throw _ => true end
         | Throw _ => false
         end
  | Throw _ => false
  end.

End EnhancedTrace.

(** ** useSpeechRecognition (hooks/useSpeechRecognition.js): recording *)

Module Recorder.
Import JsMonad.

(** A [MediaRecorder]: the stream it records and whether its state is
    ['recording'] (otherwise ['inactive']). *)
Record MediaRecorder := {
  stream : nat;
  recording : bool;
}.

(** The hook's cells ([isRecording], [isProcessing], the two refs; a
    chunk is kept as its size) and the browser objects behind them:
    every media stream obtained so far, with whether its tracks are
    live, and every recorder constructed.  Streams and recorders are
    named by position. *)
Record State := {
  isRecording : bool;
  isProcessing : bool;
  mediaRecorderRef : option nat;
  audioChunksRef : list nat;
  streams : list bool;
  recorders : list MediaRecorder;
}.

Definition mount : State :=
  {| isRecording := false; isProcessing := false; mediaRecorderRef := None;
     audioChunksRef := []; streams := []; recorders := [] |}.

(** What one call observes of the outside world. *)
Record Env := {
  (** outcome of [navigator.mediaDevices.getUserMedia] *)
  getUserMedia : Completion unit;
  (** outcome of [new MediaRecorder(stream, { mimeType })] *)
  newMediaRecorder : Completion unit;
  (** size of the data the recorder hands over when it stops *)
  lastData : nat;
  (** outcome of [apiService.speechToText]: the [text] property of the
      answer, [None] when it has none *)
  speechToText : Completion (option string);
}.

Definition setIsRecording (b : bool) : Js State unit :=
  modify (λ s, {| isRecording := b; isProcessing := isProcessing s;
                  mediaRecorderRef := mediaRecorderRef s;
                  audioChunksRef := audioChunksRef s;
                  streams := streams s; recorders := recorders s |}).

Definition setIsProcessing (b : bool) : Js State unit :=
  modify (λ s, {| isRecording := isRecording s; isProcessing := b;
                  mediaRecorderRef := mediaRecorderRef s;
                  audioChunksRef := audioChunksRef s;
                  streams := streams s; recorders := recorders s |}).

Definition setMediaRecorderRef (r : option nat) : Js State unit :=
  modify (λ s, {| isRecording := isRecording s; isProcessing := isProcessing s;
                  mediaRecorderRef := r;
                  audioChunksRef := audioChunksRef s;
                  streams := streams s; recorders := recorders s |}).

Definition setAudioChunksRef (chunks : list nat) : Js State unit :=
  modify (λ s, {| isRecording := isRecording s; isProcessing := isProcessing s;
                  mediaRecorderRef := mediaRecorderRef s;
                  audioChunksRef := chunks;
                  streams := streams s; recorders := recorders s |}).

Definition set_streams (l : list bool) (s : State) : State :=
  {| isRecording := isRecording s; isProcessing := isProcessing s;
     mediaRecorderRef := mediaRecorderRef s;
     audioChunksRef := audioChunksRef s;
     streams := l; recorders := recorders s |}.

Definition set_recorders (l : list MediaRecorder) (s : State) : State :=
  {| isRecording := isRecording s; isProcessing := isProcessing s;
     mediaRecorderRef := mediaRecorderRef s;
     audioChunksRef := audioChunksRef s;
     streams := streams s; recorders := l |}.

(** A stream just granted: its tracks are live. *)
Definition newStream : Js State nat :=
  λ s, (Normal (length (streams s)), set_streams (streams s ++ [true]) s).

(** A recorder just constructed: inactive. *)
Definition newRecorder (stream : nat) : Js State nat :=
  λ s, (Normal (length (recorders s)),
        set_recorders
          (recorders s ++ [{| stream := stream; recording := false |}]) s).

Definition set_recording (b : bool) (recorder : nat) : Js State unit :=
  modify (λ s,
    match recorders s !! recorder with
    | Some r =>
        set_recorders
          (<[recorder := {| stream := stream r; recording := b |}]> (recorders s)) s
    | None => s
    end).

(** [stream.getTracks().forEach(track => track.stop())] *)
Definition stopTracks (stream : nat) : Js State unit :=
  modify (λ s, set_streams (<[stream := false]> (streams s)) s).

(** The recorder [mediaRecorderRef.current] points to, if any, with its
    name. *)
Definition current (s : State) : option (nat * MediaRecorder) :=
  match mediaRecorderRef s with
  | Some recorder => (λ r, (recorder, r)) <$> recorders s !! recorder
  | None => None
  end.

(** [mediaRecorder.ondataavailable]: empty data is dropped. *)
Definition ondataavailable (size : nat) : Js State unit :=
  if decide (0 < size)
  then modify (λ s, {| isRecording := isRecording s;
                       isProcessing := isProcessing s;
                       mediaRecorderRef := mediaRecorderRef s;
                       audioChunksRef := audioChunksRef s ++ [size];
                       streams := streams s; recorders := recorders s |})
  else ret tt.

Definition startRecording (env : Env) : Js State unit :=
  try_catch
    (let* _ := await (getUserMedia env) in
     let* stream := newStream in
     let* _ := await (newMediaRecorder env) in
     let* mediaRecorder := newRecorder stream in
     setMediaRecorderRef (Some mediaRecorder) ;;;
     setAudioChunksRef [] ;;;
     set_recording true mediaRecorder ;;;
     setIsRecording true)
    (λ error_message,
       throw "Could not access microphone. Please check permissions.").

(** [mediaRecorderRef.current.onstop], run when the recorder has
    stopped; its completion settles the promise of [stopRecording]. *)
Definition onstop (env : Env) : Js State string :=
  try_catch
    (setIsRecording false ;;;
     setIsProcessing true ;;;
     let* text := await (speechToText env) in
     setIsProcessing false ;;;
     let* recorder := gets current in
     match recorder with
     | Some (_, r) => stopTracks (stream r)
     | None => ret tt
     end ;;;
     ret (if Browser.truthy text then default "" text else ""))
    (λ error_message,
       setIsProcessing false ;;;
       throw "Failed to convert speech to text").

(** [stopRecording()]: the promise it returns.  Stopping the recorder
    makes it inactive and hands over the data gathered last before
    [onstop] runs. *)
Definition stopRecording (env : Env) : Js State string :=
  let* recorder := gets current in
  match recorder with
  | Some (mediaRecorder, r) =>
      if recording r then
        set_recording false mediaRecorder ;;;
        ondataavailable (lastData env) ;;;
        onstop env
      else throw "No active recording found"
  | None => throw "No active recording found"
  end.

(** [cancelRecording()], up to its return. *)
Definition cancelRecording : Js State unit :=
  let* recorder := gets current in
  match recorder with
  | Some (mediaRecorder, r) =>
      if recording r then
        set_recording false mediaRecorder ;;;
        stopTracks (stream r)
      else ret tt
  | None => ret tt
  end ;;;
  setIsRecording false ;;;
  setIsProcessing false ;;;
  setAudioChunksRef [].

(** The hook holds no recorder that is recording. *)
Definition idle (s : State) : Prop :=
  match current s with
  | Some (_, r) => recording r = false
  | None => True
  end.

(** The streams whose tracks are live, and the recorders recording. *)
Definition liveStreams (s : State) : nat :=
  length (filter (λ b, b = true) (streams s)).

Definition activeRecorders (s : State) : nat :=
  length (filter (λ r, recording r = true) (recorders s)).

End Recorder.

(** ** VocabularyPanel and LessonPanel: local state *)

Module Vocabulary.

(** [toggleWordExpansion(wordIndex)] on the [expandedWords] set. *)
Definition toggleWordExpansion (wordIndex : nat) (expandedWords : gset nat)
  : gset nat :=
  if decide (wordIndex ∈ expandedWords)
  then expandedWords ∖ {[wordIndex]}
  else {[wordIndex]} ∪ expandedWords.

End Vocabulary.

Module Lesson.

(** An exercise, as far as the panel's logic reads it; [correct_answer]
    is [None] when the property is missing. *)
Record Exercise := {
  exercise_id : string;
  correct_answer : option string;
}.

Record State := {
  exercises : list Exercise;
  currentExercise : nat;
  userAnswers : gmap string string;
  showResults : bool;
}.

(** [setUserAnswers(prev => ({ ...prev, [exerciseId]: answer }))] *)
Definition handleAnswerChange (exerciseId answer : string) (s : State) : State :=
  {| exercises := exercises s; currentExercise := currentExercise s;
     userAnswers := <[exerciseId := answer]> (userAnswers s);
     showResults := showResults s |}.

Definition submitExercise (s : State) : State :=
  {| exercises := exercises s; currentExercise := currentExercise s;
     userAnswers := userAnswers s; showResults := true |}.

(** [if (currentExercise < exercises.length - 1) ...] *)
Definition nextExercise (s : State) : State :=
  if decide (Z.of_nat (currentExercise s) < Z.of_nat (length (exercises s)) - 1)%Z
  then {| exercises := exercises s; currentExercise := currentExercise s + 1;
          userAnswers := userAnswers s; showResults := false |}
  else s.

(** [userAnswers] is a plain object: the map holds its own properties,
    which are the answers given, and behind them stand the members
    every object inherits from [Object.prototype]. *)
Definition objectPrototype : list string :=
  ["constructor"; "hasOwnProperty"; "isPrototypeOf"; "propertyIsEnumerable";
   "toLocaleString"; "toString"; "valueOf"; "__proto__";
   "__defineGetter__"; "__defineSetter__"; "__lookupGetter__";
   "__lookupSetter__"].

(** What [userAnswers[key]] evaluates to: an answer, [undefined], or an
    inherited member, which is a function or an object and never a
    string. *)
Inductive Read :=
| Answer (answer : string)
| Undefined
| Inherited.

Definition get (object : gmap string string) (key : string) : Read :=
  match object !! key with
  | Some answer => Answer answer
  | None =>
      if bool_decide (key ∈ objectPrototype) then Inherited else Undefined
  end.

(** [userAnswer === correct_answer], where a missing [correct_answer]
    reads as [undefined]. *)
Definition strictEquals (userAnswer : Read) (correct_answer : option string)
  : bool :=
  match userAnswer, correct_answer with
  | Answer answer, Some correct => bool_decide (answer = correct)
  | Undefined, None => true
  | _, _ => false
  end.

(** [userAnswer === currentEx.correct_answer ? 100 : 0], and 0 without a
    current exercise. *)
Definition calculateScore (s : State) : Z :=
  match exercises s !! currentExercise s with
  | None => 0
  | Some currentEx =>
      let userAnswer := get (userAnswers s) (exercise_id currentEx) in
      if strictEquals userAnswer (correct_answer currentEx) then 100 else 0
  end%Z.

Definition getScoreColor (score : Z) : string :=
  if decide (80 ≤ score)%Z then "text-green-600"
  else if decide (60 ≤ score)%Z then "text-yellow-600"
  else "text-red-600".

End Lesson.

(** * Properties *)

(** ** The string primitives do what their JavaScript namesakes do *)

Module JsStringFacts.
Import JsString.

Lemma startsWith_spec s p :
  startsWith s p = true ↔ ∃ r, s = p +:+ r.
Proof.
  revert s. induction p as [|a p IH]; intros s; simpl.
  - split; [intros _; by exists s | by intros _].
  - destruct s as [|b s].
    + split; [done | intros [r Hr]; discriminate].
    + rewrite andb_true_iff, IH.
      split.
      * intros [Hab [r ->]]. apply Ascii.eqb_eq in Hab as ->. by exists r.
      * intros [r Hr]. injection Hr as -> ->.
        split; [apply Ascii.eqb_refl | by exists r].
Qed.

Lemma includes_spec s sub :
  includes s sub = true ↔ ∃ l r, s = l +:+ sub +:+ r.
Proof.
  induction s as [|c s IH]; simpl.
  - rewrite orb_false_r, startsWith_spec. split.
    + intros [r Hr]. by exists "", r.
    + intros [l [r Hr]]. destruct l; [by exists r | discriminate].
  - rewrite orb_true_iff, startsWith_spec, IH. split.
    + intros [[r Hr] | [l [r Hr]]].
      * by exists "", r.
      * exists (String c l), r. simpl. by rewrite Hr.
    + intros [l [r Hr]]. destruct l as [|d l]; simpl in Hr.
      * left. by exists r.
      * right. injection Hr as -> ->. by exists l, r.
Qed.

Lemma js_find_Some {A} (p : A → bool) l x :
  find p l = Some x ↔
  ∃ l1 l2, l = l1 ++ x :: l2 ∧ p x = true ∧ Forall (λ y, p y = false) l1.
Proof.
  induction l as [|y l IH]; simpl.
  - split; [done | intros ([|??] & ? & ? & _); discriminate].
  - destruct (p y) eqn:Hy.
    + split.
      * intros [= ->]. by exists [], l.
      * intros ([|z l1] & l2 & Hl & Hx & Hall); simplify_eq/=; [done|].
        apply Forall_cons in Hall as [? _]. congruence.
    + rewrite IH. split.
      * intros (l1 & l2 & -> & Hx & Hall). exists (y :: l1), l2.
        split_and!; [done | done | by constructor].
      * intros ([|z l1] & l2 & Hl & Hx & Hall); simplify_eq/=; [congruence|].
        apply Forall_cons in Hall as [_ ?]. by exists l1, l2.
Qed.

Lemma js_find_None {A} (p : A → bool) l :
  find p l = None ↔ Forall (λ y, p y = false) l.
Proof.
  induction l as [|y l IH]; simpl; [by split |].
  destruct (p y) eqn:Hy.
  - split; [done | intros [? _]%Forall_cons; congruence].
  - rewrite IH. split; [by constructor | by intros [_ ?]%Forall_cons].
Qed.


Lemma substring_0 s n : substring s 0 n = take n s.
Proof. unfold substring. simpl. by rewrite Nat.sub_0_r. Qed.

Lemma string_app_cons x (a b : string) : String x a +:+ b = String x (a +:+ b).
Proof. reflexivity. Qed.

Lemma string_app_assoc (a b c : string) : (a +:+ b) +:+ c = a +:+ (b +:+ c).
Proof.
  induction a as [|x a IH]; [done |]. by rewrite !string_app_cons, IH.
Qed.

Lemma string_app_empty_r (a : string) : a +:+ "" = a.
Proof.
  induction a as [|x a IH]; [done |]. by rewrite string_app_cons, IH.
Qed.

(** [take n s] is how [s] begins, and it has [n] characters unless [s]
    is shorter. *)
Lemma take_begins (n : nat) (s : string) : ∃ rest, s = take n s +:+ rest.
Proof.
  revert s. induction n as [|n IH]; intros [|c s]; simpl;
    [by exists "" | by eexists | by exists "" |].
  destruct (IH s) as [rest Hrest]. exists rest.
  by rewrite string_app_cons, <- Hrest.
Qed.

Lemma take_length (n : nat) (s : string) :
  String.length (take n s) = Nat.min n (String.length s).
Proof.
  revert s. induction n as [|n IH]; intros [|c s]; simpl; try done.
  by rewrite IH.
Qed.

Lemma take_all (n : nat) (s : string) :
  (String.length s ≤ n)%nat → take n s = s.
Proof.
  revert s. induction n as [|n IH]; intros [|c s] Hlen; simpl in *;
    try done; [lia |].
  rewrite IH; [done | lia].
Qed.

(** Two beginnings of one string that are equally long are equal. *)
Lemma beginning_unique (p1 p2 r1 r2 : string) :
  p1 +:+ r1 = p2 +:+ r2 → String.length p1 = String.length p2 → p1 = p2.
Proof.
  revert p2. induction p1 as [|c p1 IH]; intros [|d p2] Heq Hlen;
    simpl in Hlen; try done.
  rewrite !string_app_cons in Heq. injection Heq as -> Heq.
  f_equal. apply IH; [done | lia].
Qed.

End JsStringFacts.

(** ** Speech capture *)

Module RecognitionFacts.
Import Recognition Samples.

Lemma transcript_concat_app (l1 l2 : list string) :
  concat (l1 ++ l2) = concat l1 +:+ concat l2.
Proof.
  induction l1 as [|x l1 IH]; simpl; [done |].
  by rewrite IH, JsStringFacts.string_app_assoc.
Qed.

(** The loop of [onresult], in closed form: finals go to the first
    accumulator and interims to the second, both in order. *)
Lemma loop_closed_form (rs : list SpeechRecognitionResult) (fin int : string) :
  foldl onresult_step (fin, int) rs =
  (fin +:+ concat (result_transcript <$> filter (λ r, isFinal r = true) rs),
   int +:+ concat (result_transcript <$> filter (λ r, isFinal r = false) rs)).
Proof.
  revert fin int. induction rs as [|r rs IH]; intros fin int.
  - simpl. by rewrite !JsStringFacts.string_app_empty_r.
  - change (foldl onresult_step (fin, int) (r :: rs))
      with (foldl onresult_step (onresult_step (fin, int) r) rs).
    unfold onresult_step at 2. destruct (isFinal r) eqn:Hr.
    + rewrite IH, (filter_cons_True (λ r, isFinal r = true)) by done.
      rewrite (filter_cons_False (λ r, isFinal r = false)) by congruence.
      rewrite fmap_cons. cbn [concat foldr].
      by rewrite JsStringFacts.string_app_assoc.
    + rewrite IH, (filter_cons_False (λ r, isFinal r = true)) by congruence.
      rewrite (filter_cons_True (λ r, isFinal r = false)) by done.
      rewrite fmap_cons. cbn [concat foldr].
      by rewrite JsStringFacts.string_app_assoc.
Qed.

Lemma onresult_final (event : SpeechRecognitionEvent) (s : State) :
  finalTranscriptRef (onresult event s) =
  finalTranscriptRef s +:+ concat (finalSegments event).
Proof.
  unfold onresult, onresult_loop, finalSegments, segments.
  by rewrite loop_closed_form.
Qed.

Lemma onresult_transcript (event : SpeechRecognitionEvent) (s : State) :
  transcript (onresult event s) = finalTranscriptRef (onresult event s).
Proof.
  unfold onresult, onresult_loop. by rewrite loop_closed_form.
Qed.

Lemma onresult_interim (event : SpeechRecognitionEvent) (s : State) :
  interimTranscript (onresult event s) = concat (interimSegments event).
Proof.
  unfold onresult, onresult_loop, interimSegments, segments.
  by rewrite loop_closed_form.
Qed.

Lemma deliver_app (l1 l2 : list SpeechRecognitionEvent) (s : State) :
  deliver (l1 ++ l2) s = deliver l2 (deliver l1 s).
Proof. unfold deliver. by rewrite foldl_app. Qed.

Lemma deliver_final (events : list SpeechRecognitionEvent) (s : State) :
  finalTranscriptRef (deliver events s) =
  finalTranscriptRef s +:+ concat (events ≫= finalSegments).
Proof.
  revert s. induction events as [|e events IH]; intros s; simpl.
  - by rewrite JsStringFacts.string_app_empty_r.
  - rewrite IH, onresult_final, transcript_concat_app.
    by rewrite JsStringFacts.string_app_assoc.
Qed.

Lemma deliver_synced (events : list SpeechRecognitionEvent) (s : State) :
  synced s → synced (deliver events s).
Proof.
  revert s. induction events as [|e events IH]; intros s Hs; simpl; [done |].
  apply IH. apply onresult_transcript.
Qed.

Lemma synced_mount supported : synced (mount supported).
Proof. done. Qed.

Lemma synced_startListening language throws s :
  synced s → synced (startListening language throws s).
Proof.
  unfold startListening.
  destruct (isSupported s), (isListening s), throws; simpl; done.
Qed.

Lemma synced_resetTranscript s : synced (resetTranscript s).
Proof. done. Qed.

Lemma interim_only_no_final (later : list SpeechRecognitionEvent) :
  Forall (λ e, Forall (λ r, isFinal r = false) (segments e)) later →
  later ≫= finalSegments = [].
Proof.
  induction 1 as [|e later He _ IH]; [done |].
  rewrite bind_cons, IH, app_nil_r. unfold finalSegments.
  replace (filter (λ r, isFinal r = true) (segments e)) with
    (@nil SpeechRecognitionResult); [done |].
  symmetry. induction He as [|r rs Hr _ IHrs]; [done |].
  rewrite filter_cons, decide_False by congruence. done.
Qed.

(** C2. Within a capture session (events delivered to [onresult] in
    arrival order, starting from a state whose displayed transcript
    agrees with its ref), the final transcript after any sequence
    [events] of result events, followed by any sequence [later] of
    updates carrying interim segments only, is the transcript the
    session started with followed by the concatenation of all final
    segments of [events] in arrival order: finals are appended and the
    later interim updates do not touch them.  Each single event appends
    its final segments to what was there, and replaces the interim
    transcript by the concatenation of its own interim segments,
    whatever the interim transcript was before. *)
Theorem final_transcript_is_concatenation_of_finals
    (s : State) (events later : list SpeechRecognitionEvent) :
  synced s →
  Forall (λ e, Forall (λ r, isFinal r = false) (segments e)) later →
  let s' := deliver (events ++ later) s in
  finalTranscriptRef s' =
    finalTranscriptRef s +:+ concat (events ≫= finalSegments)
  ∧ transcript s' = finalTranscriptRef s'
  ∧ finalTranscriptRef s' = finalTranscriptRef (deliver events s)
  ∧ (∀ event t,
       finalTranscriptRef (onresult event t) =
         finalTranscriptRef t +:+ concat (finalSegments event)
       ∧ transcript (onresult event t) = finalTranscriptRef (onresult event t)
       ∧ interimTranscript (onresult event t) = concat (interimSegments event)).
Proof.
  intros Hs Hlater s'. subst s'.
  assert (finalTranscriptRef (deliver (events ++ later) s) =
          finalTranscriptRef (deliver events s)) as Hsame.
  { rewrite deliver_app, deliver_final, (interim_only_no_final later Hlater).
    simpl. by rewrite JsStringFacts.string_app_empty_r. }
  split_and!.
  - by rewrite Hsame, deliver_final.
  - by apply deliver_synced.
  - done.
  - intros event t. split_and!.
    + apply onresult_final.
    + apply onresult_transcript.
    + apply onresult_interim.
Qed.

(** The scenario of the spec ends with "hello world" as final
    transcript, the later interim update notwithstanding. *)
Lemma final_transcript_hello_world :
  synced session
  ∧ Forall (λ e, Forall (λ r, isFinal r = false) (segments e)) afterwards
  ∧ finalTranscriptRef (deliver (helloWorld ++ afterwards) session)
    = "hello world"
  ∧ transcript (deliver (helloWorld ++ afterwards) session) = "hello world".
Proof.
  assert (synced session) as Hsync by reflexivity.
  assert (Forall (λ e, Forall (λ r, isFinal r = false) (segments e))
            afterwards) as Hlater by repeat constructor.
  destruct (final_transcript_is_concatenation_of_finals session
              helloWorld afterwards Hsync Hlater) as (H1 & H2 & _).
  split_and!; [done | done | |].
  - rewrite H1. reflexivity.
  - rewrite H2, H1. reflexivity.
Defined.

(** C5. For every platform error code the [onerror] handler leaves
    [isListening] false and an error whose kind is the one the fixed
    table gives for the code: no-speech for "no-speech",
    audio-capture-denied for "audio-capture", permission-denied for
    "not-allowed", network for "network", and other (carrying the code)
    for anything else.  In particular "not-allowed" yields
    permission-denied with listening false. *)
Theorem onerror_maps_code_to_kind (code : string) (s : State) :
  isListening (onerror code s) = false
  ∧ errorKind (onerror code s) = Some (errorTable code)
  ∧ errorTable "no-speech" = no_speech
  ∧ errorTable "audio-capture" = audio_capture_denied
  ∧ errorTable "not-allowed" = permission_denied
  ∧ errorTable "network" = network
  ∧ (errorTable code = other code
     ∨ code = "no-speech" ∨ code = "audio-capture"
     ∨ code = "not-allowed" ∨ code = "network")
  ∧ errorKind (onerror "not-allowed" s) = Some permission_denied
  ∧ isListening (onerror "not-allowed" s) = false.
Proof.
  split_and!; try reflexivity.
  - unfold onerror. by repeat case_match.
  - unfold onerror, errorTable, errorKind.
    repeat case_match; simplify_eq/=; try reflexivity.
  - unfold errorTable.
    repeat case_match; auto;
      match goal with H : String.eqb _ _ = true |- _ =>
        apply String.eqb_eq in H; auto 6 end.
Qed.

(** C8. [resetTranscript] empties the final transcript (the displayed
    one and the ref behind it) and the interim transcript and clears
    the error; [isListening], [isSupported] and the recognizer's
    language are what they were. *)
Theorem resetTranscript_frame (s : State) :
  transcript (resetTranscript s) = ""
  ∧ finalTranscriptRef (resetTranscript s) = ""
  ∧ interimTranscript (resetTranscript s) = ""
  ∧ error (resetTranscript s) = None
  ∧ isListening (resetTranscript s) = isListening s
  ∧ isSupported (resetTranscript s) = isSupported s
  ∧ recognition_lang (resetTranscript s) = recognition_lang s.
Proof. by split_and!. Qed.

End RecognitionFacts.

(** ** The browser model *)

Module BrowserFacts.
Import Browser.

(** Starting the element just constructed touches no older element. *)
Lemma startPlayback_new (l : list Audio) (a : Audio) (p : Platform) :
  startPlayback (length l) (set_audios (l ++ [a]) p) =
  set_audios (l ++ [set_playing true a]) p.
Proof.
  unfold startPlayback, update_audio. simpl.
  rewrite list_lookup_middle by done.
  rewrite insert_app_r_alt, Nat.sub_diag by done.
  reflexivity.
Qed.

Lemma playing_count_app (l1 l2 : list Audio) :
  length (filter (λ a, audio_playing a = true) (l1 ++ l2)) =
  length (filter (λ a, audio_playing a = true) l1)
  + length (filter (λ a, audio_playing a = true) l2).
Proof. by rewrite filter_app, length_app. Qed.

Lemma isPlaying_app_l (l1 l2 : list Audio) (p : Platform) (i : nat) :
  i < length l1 →
  isPlaying (set_audios (l1 ++ l2) p) i = isPlaying (set_audios l1 p) i.
Proof.
  intros Hi. unfold isPlaying. simpl. by rewrite lookup_app_l.
Qed.

End BrowserFacts.

(** ** Text to speech *)

Module SpeechFacts.
Import JsMonad Browser Samples.

(** Unfolds the monad so that a hook function becomes a case tree. *)
Ltac run :=
  unfold exec, completion, try_catch, bind, ret, throw, await,
    gets, modify in *.

Ltac run_enhanced :=
  unfold Enhanced.speak, Enhanced.backendTTS, Enhanced.browserTTS,
    Enhanced.stopSpeaking, Enhanced.audio_ended, Enhanced.audio_failed,
    Enhanced.utterance_ended, Enhanced.utterance_failed,
    Enhanced.audio_onended, Enhanced.audio_onerror,
    Enhanced.utterance_onend, Enhanced.utterance_onerror,
    Enhanced.setIsSpeaking, Enhanced.setError, Enhanced.setAudioRef,
    Enhanced.onPlatform, Enhanced.fromPlatform in *;
  run.

Ltac run_legacy :=
  unfold Legacy.speak, Legacy.textToSpeech, Legacy.stopSpeaking,
    Legacy.audio_ended, Legacy.audio_failed, Legacy.utterance_ended,
    Legacy.utterance_failed, Legacy.audio_onended, Legacy.audio_onerror,
    Legacy.utterance_handler, Legacy.setIsSpeaking, Legacy.setAudioRef,
    Legacy.onPlatform, Legacy.fromPlatform in *;
  run.

(** Splits the case tree and brings the platform to a readable form. *)
Ltac cases :=
  simpl; repeat (case_match; simplify_eq/=);
  rewrite ?BrowserFacts.startPlayback_new.

Ltac count :=
  unfold activeResources, pendingUtterances; simpl;
  rewrite ?BrowserFacts.playing_count_app, ?length_app; simpl; lia.

(** Once the options are destructured nothing escapes [speak], in
    either hook, whatever the text, the state and the behaviour of the
    backend, of [atob] and of [audio.play()].  In the enhanced hook a
    call that ends without any resource started reports it in the
    error cell with the speaking flag cleared, and otherwise leaves the
    error cell empty and the flag set; a synthesis error arrives in the
    [onerror] handler, which completes normally, fills the error cell
    and clears the flag. *)
Lemma speak_body_resolves :
  (∀ env text options s,
     completion (Enhanced.speak env text options) s = Normal tt
     ∧ let s' := exec (Enhanced.speak env text options) s in
       (Enhanced.error s' = None ∧ Enhanced.isSpeaking s' = true
        ∧ activeResources (Enhanced.platform s) <
          activeResources (Enhanced.platform s'))
       ∨ (Enhanced.error s' =
            Some "Text-to-speech not supported in this browser"
          ∧ Enhanced.isSpeaking s' = false
          ∧ speechSynthesis (Enhanced.platform s) = None))
  ∧ (∀ code s,
       completion (Enhanced.utterance_onerror code) s = Normal tt
       ∧ Enhanced.error (exec (Enhanced.utterance_onerror code) s) =
           Some ("TTS Error: " +:+ code)
       ∧ Enhanced.isSpeaking (exec (Enhanced.utterance_onerror code) s) = false)
  ∧ (∀ env text languageCode s,
       completion (Legacy.speak env text languageCode) s = Normal tt).
Proof.
  split_and!.
  - intros env text options [sp er ar [au ur uc [[q vs]|]]].
    all: run_enhanced; cases.
    all: try (split; [done | right; done]).
    all: split; [done | left; split_and!; [done | done | count]].
  - intros code s. by run_enhanced.
  - intros env text lc [sp ar [au ur uc [[q vs]|]]].
    all: run_legacy; cases; done.
Qed.

(** [speak('Hi', null)] on a fresh page with a working backend: the
    promise is rejected with the TypeError of the destructuring, and
    the failure is reported nowhere else: the error cell stays empty
    and nothing of the hook or of the browser has changed. *)
Lemma speak_with_null_options_rejects :
  completion (Enhanced.speak_from backendPlays "Hi" Enhanced.ArgNull)
    (Enhanced.mount page) = Throw "TypeError"
  ∧ Enhanced.error
      (exec (Enhanced.speak_from backendPlays "Hi" Enhanced.ArgNull)
         (Enhanced.mount page)) = None
  ∧ exec (Enhanced.speak_from backendPlays "Hi" Enhanced.ArgNull)
      (Enhanced.mount page) = Enhanced.mount page.
Proof. by vm_compute. Qed.

(** C9, amended. Called with any text and with options that are
    missing, [undefined], an object or a primitive, that is with
    anything but [null], [speak] returns a promise that is always
    resolved, whatever the state and the behaviour of the backend, of
    [atob] and of [audio.play()]: a call that ends without any resource
    started reports it in the error cell with the speaking flag
    cleared, and otherwise leaves the error cell empty and the flag
    set.  Called with [null] for the options the promise is rejected
    and the state is as it was.  A synthesis error arrives in the
    [onerror] handler, which completes normally, fills the error cell
    and clears the flag.  The promise of the other hook's [speak] is
    always resolved. *)
Theorem speak_resolves_unless_options_null :
  (∀ env text argument s,
     argument ≠ Enhanced.ArgNull →
     completion (Enhanced.speak_from env text argument) s = Normal tt
     ∧ let s' := exec (Enhanced.speak_from env text argument) s in
       (Enhanced.error s' = None ∧ Enhanced.isSpeaking s' = true
        ∧ activeResources (Enhanced.platform s) <
          activeResources (Enhanced.platform s'))
       ∨ (Enhanced.error s' =
            Some "Text-to-speech not supported in this browser"
          ∧ Enhanced.isSpeaking s' = false
          ∧ speechSynthesis (Enhanced.platform s) = None))
  ∧ (∀ env text s,
       (∃ reason,
          completion (Enhanced.speak_from env text Enhanced.ArgNull) s =
            Throw reason)
       ∧ exec (Enhanced.speak_from env text Enhanced.ArgNull) s = s)
  ∧ (∀ code s,
       completion (Enhanced.utterance_onerror code) s = Normal tt
       ∧ Enhanced.error (exec (Enhanced.utterance_onerror code) s) =
           Some ("TTS Error: " +:+ code)
       ∧ Enhanced.isSpeaking (exec (Enhanced.utterance_onerror code) s) = false)
  ∧ (∀ env text languageCode s,
       completion (Legacy.speak env text languageCode) s = Normal tt).
Proof.
  destruct speak_body_resolves as (Henhanced & Hhandler & Hlegacy).
  refine (conj _ (conj _ (conj Hhandler Hlegacy))).
  - intros env text [| |options|] s Hargument; [| done | |];
      apply Henhanced.
  - intros env text s. split; [by eexists | done].
Qed.

(** With the backend out of reach and no speech synthesis, a call
    without options is resolved and the failure is in the error cell. *)
Lemma speak_resolves_without_options_sample :
  Enhanced.ArgUndefined ≠ Enhanced.ArgNull
  ∧ completion (Enhanced.speak_from backendDown "Hi" Enhanced.ArgUndefined)
      (Enhanced.mount pageWithoutSynthesis) = Normal tt
  ∧ Enhanced.error
      (exec (Enhanced.speak_from backendDown "Hi" Enhanced.ArgUndefined)
         (Enhanced.mount pageWithoutSynthesis)) =
      Some "Text-to-speech not supported in this browser".
Proof.
  assert (Enhanced.ArgUndefined ≠ Enhanced.ArgNull) as Hargument by done.
  split; [exact Hargument |].
  destruct speak_resolves_unless_options_null as (Hresolves & _).
  destruct (Hresolves backendDown "Hi" Enhanced.ArgUndefined
              (Enhanced.mount pageWithoutSynthesis) Hargument)
    as [Hcompletion _].
  split; [exact Hcompletion | reflexivity].
Defined.

(** *** Voice selection *)

(** What [languageCode.substring(0, 2)] returns is the first two
    characters of the tag, and nothing else is. *)
Lemma substring_firstTwoCharacters (languageCode prefix : string) :
  Spec.firstTwoCharacters languageCode prefix
  ↔ prefix = JsString.substring languageCode 0 2.
Proof.
  rewrite JsStringFacts.substring_0. unfold Spec.firstTwoCharacters. split.
  - intros [[rest Hrest] Hlen].
    destruct (JsStringFacts.take_begins 2 languageCode) as [rest' Hrest'].
    pose proof (JsStringFacts.take_length 2 languageCode) as Htake.
    destruct Hlen as [Hlen | [Hshort ->]].
    + eapply JsStringFacts.beginning_unique.
      * rewrite <- Hrest. exact Hrest'.
      * rewrite Htake, Hlen.
        assert (String.length languageCode
                = String.length prefix + String.length rest)%nat as Hsum.
        { rewrite Hrest. clear. induction prefix as [|c p IH]; [done |].
          rewrite JsStringFacts.string_app_cons. simpl. by rewrite IH. }
        lia.
    + symmetry. apply JsStringFacts.take_all. lia.
  - intros ->. split; [apply JsStringFacts.take_begins |].
    rewrite JsStringFacts.take_length.
    destruct (decide (String.length languageCode < 2)%nat) as [Hshort | Hlong].
    + right. split; [done |]. apply JsStringFacts.take_all. lia.
    + left. lia.
Qed.

Lemma startsWith_localeMatches languageCode (v : Voice) :
  JsString.startsWith (voice_lang v) (JsString.substring languageCode 0 2) = true
  ↔ Spec.localeMatches languageCode v.
Proof.
  rewrite JsStringFacts.startsWith_spec. unfold Spec.localeMatches. split.
  - intros [rest Hrest]. eexists _, rest.
    split; [by apply substring_firstTwoCharacters | done].
  - intros (prefix & rest & Hprefix & Hrest).
    apply substring_firstTwoCharacters in Hprefix as ->. by exists rest.
Qed.

Lemma includes_higherQuality (v : Voice) :
  JsString.includes (voice_name v) "Google" = true ↔ Spec.higherQuality v.
Proof. apply JsStringFacts.includes_spec. Qed.

Lemma not_true_false_iff (b : bool) (P : Prop) :
  (b = true ↔ P) → (b = false ↔ ¬ P).
Proof. destruct b; intros [H1 H2]; split; try done; naive_solver. Qed.

(** The lookup of [speak] implements the policy. *)
Lemma preferredVoice_selects (voices : list Voice) (languageCode : string) :
  Spec.selects voices languageCode
    (Enhanced.preferredVoice voices languageCode).
Proof.
  unfold Enhanced.preferredVoice.
  destruct (JsString.find _ voices) as [v|] eqn:Hboth.
  - apply JsStringFacts.js_find_Some in Hboth
      as (before & after & -> & Hv & Hbefore).
    apply andb_true_iff in Hv as [Hl Hq].
    eapply Spec.select_preferred; [done | | |].
    + by apply startsWith_localeMatches.
    + by apply includes_higherQuality.
    + eapply Forall_impl; [exact Hbefore |]. intros w Hw [Hwl Hwq]; simpl in Hw.
      apply startsWith_localeMatches in Hwl.
      apply includes_higherQuality in Hwq.
      by rewrite Hwl, Hwq in Hw.
  - apply JsStringFacts.js_find_None in Hboth.
    assert (Forall (λ w, ¬ (Spec.localeMatches languageCode w
                           ∧ Spec.higherQuality w)) voices) as Hnone.
    { eapply Forall_impl; [exact Hboth |]. intros w Hw [Hwl Hwq]; simpl in Hw.
      apply startsWith_localeMatches in Hwl.
      apply includes_higherQuality in Hwq.
      by rewrite Hwl, Hwq in Hw. }
    destruct (JsString.find _ voices) as [v|] eqn:Hany.
    + apply JsStringFacts.js_find_Some in Hany
        as (before & after & Hvoices & Hv & Hbefore).
      eapply Spec.select_matching; [done | exact Hvoices | |].
      * by apply startsWith_localeMatches.
      * eapply Forall_impl; [exact Hbefore |]. intros w Hw; simpl in Hw.
        by apply (not_true_false_iff _ _ (startsWith_localeMatches _ w)).
    + apply JsStringFacts.js_find_None in Hany.
      apply Spec.select_default.
      eapply Forall_impl; [exact Hany |]. intros w Hw; simpl in Hw.
      by apply (not_true_false_iff _ _ (startsWith_localeMatches _ w)).
Qed.

(** C7. Whenever [speak] goes to local synthesis (the backend is not
    preferred, or its render fails, or the audio it returned cannot be
    decoded or played) on a platform that has speech synthesis, the
    utterance it queues carries the voice the lookup returns, and that
    voice obeys the policy: the first voice whose locale starts with
    the first two characters of the requested language tag and whose
    name mentions Google; failing that, the first voice of matching
    locale; failing that, none, so that the utterance keeps the
    platform default. *)
Theorem speak_selects_voice_by_policy
    (env : Env) (text : string) (options : option Enhanced.Options)
    (s : Enhanced.State) (ss : SpeechSynthesis) :
  speechSynthesis (Enhanced.platform s) = Some ss →
  Enhanced.b_useBackend (Enhanced.destructure options) = false
    ∨ Spec.backendGivesUp env = true →
  let languageCode := Enhanced.b_languageCode (Enhanced.destructure options) in
  ∃ u,
    pendingUtterances
      (Enhanced.platform (exec (Enhanced.speak env text options) s))
      = queue ss ++ [u]
    ∧ u_voice u = Enhanced.preferredVoice (voices ss) languageCode
    ∧ Spec.selects (voices ss) languageCode (u_voice u).
Proof.
  intros Hss Hlocal languageCode.
  pose proof (preferredVoice_selects (voices ss) languageCode) as Hpolicy.
  subst languageCode.
  destruct s as [sp er ar [au ur uc ss']]; simpl in Hss; subst ss'.
  destruct ss as [q vs].
  unfold Spec.backendGivesUp, Spec.renderFails in Hlocal.
  run_enhanced. unfold Enhanced.destructure in *. cases.
  all: try (destruct Hlocal; simplify_eq/=; done).
  all: eexists; split_and!; [reflexivity | simpl; try done | simpl; try done].
  all: unfold getVoices in *; simpl in *.
  all: try match goal with H : Enhanced.preferredVoice _ _ = _ |- _ =>
             rewrite H in Hpolicy end.
  all: done.
Qed.

(** On the sample page a call for "en-US" whose backend audio the
    browser refuses to play gets the Google voice, though it is the
    last of the three. *)
Lemma speak_selects_voice_by_policy_sample :
  speechSynthesis (Enhanced.platform (Enhanced.mount page)) =
    Some {| queue := []; voices := [samantha; monica; googleUS] |}
  ∧ Spec.backendGivesUp backendUnplayable = true
  ∧ Enhanced.preferredVoice [samantha; monica; googleUS] "en-US" = Some googleUS
  ∧ ∃ u,
      pendingUtterances
        (Enhanced.platform
           (exec (Enhanced.speak backendUnplayable "Hi" None)
              (Enhanced.mount page)))
        = [] ++ [u]
      ∧ u_voice u = Enhanced.preferredVoice [samantha; monica; googleUS] "en-US"
      ∧ Spec.selects [samantha; monica; googleUS] "en-US" (u_voice u).
Proof.
  split_and!; [reflexivity | reflexivity | reflexivity |].
  apply (speak_selects_voice_by_policy backendUnplayable "Hi" None
           (Enhanced.mount page)
           {| queue := []; voices := [samantha; monica; googleUS] |}).
  - reflexivity.
  - right. reflexivity.
Defined.

(** *** Defaults *)

(** C10. Called without an options object, or with an object that
    leaves the properties out, [speak] works with language "en-US",
    rate 0.8, pitch 1, volume 1 and the backend preferred; a property
    that is given replaces its default only.  The defaults show in what
    the call does: with the backend out of reach the utterance handed
    to the synthesizer carries them, and with a working backend the
    backend's audio is what plays. *)
Theorem speak_defaults :
  Enhanced.destructure None =
    {| Enhanced.b_languageCode := "en-US"; Enhanced.b_rate := 0.8;
       Enhanced.b_pitch := 1; Enhanced.b_volume := 1;
       Enhanced.b_useBackend := true |}
  ∧ Enhanced.destructure (Some Enhanced.noOptions) = Enhanced.destructure None
  ∧ (∀ o,
       Enhanced.destructure (Some o) =
         {| Enhanced.b_languageCode := default "en-US" (Enhanced.languageCode o);
            Enhanced.b_rate := default 0.8%Q (Enhanced.rate o);
            Enhanced.b_pitch := default 1%Q (Enhanced.pitch o);
            Enhanced.b_volume := default 1%Q (Enhanced.volume o);
            Enhanced.b_useBackend := default true (Enhanced.useBackend o) |})
  ∧ (∀ text vs,
       pendingUtterances
         (Enhanced.platform
            (exec (Enhanced.speak backendDown text None)
               (Enhanced.mount (freshPage (Some vs))))) =
         [{| u_text := text; u_lang := "en-US"; u_rate := 0.8; u_pitch := 1;
             u_volume := 1;
             u_voice := Enhanced.preferredVoice vs "en-US";
             u_onerror := true |}])
  ∧ (∀ text vs,
       let s := exec (Enhanced.speak backendPlays text None)
                  (Enhanced.mount (freshPage (Some vs))) in
       Enhanced.audioRef s = Some 0
       ∧ isPlaying (Enhanced.platform s) 0 = true
       ∧ pendingUtterances (Enhanced.platform s) = []).
Proof.
  split_and!; try reflexivity.
  - intros text vs. run_enhanced. simpl.
    change (getVoices (freshPage (Some vs))) with vs.
    by destruct (Enhanced.preferredVoice vs "en-US").
  - intros text vs. by run_enhanced.
Qed.

(** *** Fallback *)

(** C3. With the backend preferred, a backend render that fails
    (network failure, non-success status, unreadable body or a body
    without audio) does not stop [speak]: the promise resolves and
    local synthesis is attempted.  On a platform with speech synthesis
    an utterance with the text and the requested language, rate, pitch
    and volume joins the queue, the error cell is empty and the
    speaking flag set, and once the platform reports the end of an
    utterance the flag is cleared with the error cell still empty.
    Without speech synthesis the attempt is what fails, and only then
    is an error set.  The older hook falls back under the same
    failures: it queues an utterance with the text, the language and
    rate 0.8 and its promise resolves. *)
Theorem backend_failure_falls_back_to_synthesis
    (env : Env) (text : string) (options : option Enhanced.Options)
    (languageCode : option string)
    (s : Enhanced.State) (t : Legacy.State) :
  Spec.renderFails env = true →
  Enhanced.b_useBackend (Enhanced.destructure options) = true →
  let b := Enhanced.destructure options in
  let s' := exec (Enhanced.speak env text options) s in
  let t' := exec (Legacy.speak env text languageCode) t in
  completion (Enhanced.speak env text options) s = Normal tt
  ∧ match speechSynthesis (Enhanced.platform s) with
    | Some ss =>
        (∃ u, pendingUtterances (Enhanced.platform s') = queue ss ++ [u]
              ∧ u_text u = text
              ∧ u_lang u = Enhanced.b_languageCode b
              ∧ u_rate u = Enhanced.b_rate b
              ∧ u_pitch u = Enhanced.b_pitch b
              ∧ u_volume u = Enhanced.b_volume b)
        ∧ Enhanced.error s' = None
        ∧ Enhanced.isSpeaking s' = true
        ∧ completion Enhanced.utterance_ended s' = Normal tt
        ∧ Enhanced.error (exec Enhanced.utterance_ended s') = None
        ∧ Enhanced.isSpeaking (exec Enhanced.utterance_ended s') = false
    | None =>
        Enhanced.error s' =
          Some "Text-to-speech not supported in this browser"
    end
  ∧ completion (Legacy.speak env text languageCode) t = Normal tt
  ∧ match speechSynthesis (Legacy.platform t) with
    | Some ss =>
        ∃ u, pendingUtterances (Legacy.platform t') = queue ss ++ [u]
             ∧ u_text u = text
             ∧ u_lang u = default "en-US" languageCode
             ∧ u_rate u = 0.8%Q
    | None => Legacy.isSpeaking t' = false
    end.
Proof.
  intros Hfail Hpref b s' t'. subst b s' t'.
  unfold Spec.renderFails in Hfail.
  destruct s as [sp er ar [au ur uc [[q vs]|]]];
    destruct t as [sp' ar' [au' ur' uc' [[q' vs']|]]].
  all: cbn [speechSynthesis Enhanced.platform Legacy.platform].
  all: refine (conj _ (conj _ (conj _ _))).
  all: try destruct q as [|u0 q].
  all: run_enhanced; run_legacy; unfold Enhanced.destructure in *; cases.
  all: try done.
  all: try match goal with
           | H : ?x = true, H' : negb ?x = true |- _ =>
               rewrite H in H'; discriminate
           end.
  all: repeat split; try done.
  all: try (eexists; split_and!; done).
Qed.

(** A server error on the sample page: both hooks resolve and the
    enhanced hook shows no error. *)
Lemma backend_failure_falls_back_sample :
  Spec.renderFails backendError = true
  ∧ Enhanced.b_useBackend (Enhanced.destructure None) = true
  ∧ completion (Enhanced.speak backendError "Hi" None) (Enhanced.mount page)
    = Normal tt
  ∧ Enhanced.error
      (exec (Enhanced.speak backendError "Hi" None) (Enhanced.mount page))
    = None
  ∧ completion (Legacy.speak backendError "Hi" None) (Legacy.mount page)
    = Normal tt.
Proof.
  pose proof (backend_failure_falls_back_to_synthesis backendError "Hi"
                None None (Enhanced.mount page) (Legacy.mount page)
                eq_refl eq_refl) as (H1 & H2 & H3 & _).
  simpl in H2. destruct H2 as (_ & H2 & _).
  split_and!; [reflexivity | reflexivity | | |]; assumption.
Defined.

(** *** One resource at a time? *)

(** C1, as stated, fails.  A second [speak] while the audio of the
    first is playing settles with two Audio elements playing and both
    object URLs registered; the hook only remembers the newer element.
    With local synthesis the second utterance waits behind the first.
    The same happens in the older hook. *)
Lemma speak_while_playing_leaves_two_active :
  (isPlaying (Enhanced.platform afterOne) 0 = true
   ∧ activeResources (Enhanced.platform afterOne) = 1
   ∧ completion (Enhanced.speak backendPlays "two" None) afterOne = Normal tt
   ∧ isPlaying (Enhanced.platform afterTwo) 0 = true
   ∧ isPlaying (Enhanced.platform afterTwo) 1 = true
   ∧ objectURLs (Enhanced.platform afterTwo) = {[0; 1]}
   ∧ Enhanced.audioRef afterTwo = Some 1
   ∧ activeResources (Enhanced.platform afterTwo) = 2
   ∧ activeResources (Enhanced.platform afterTwo) ≠ 1)
  ∧ (activeResources (Legacy.platform legacyAfterOne) = 1
     ∧ isPlaying (Legacy.platform legacyAfterTwo) 0 = true
     ∧ isPlaying (Legacy.platform legacyAfterTwo) 1 = true
     ∧ activeResources (Legacy.platform legacyAfterTwo) = 2)
  ∧ (activeResources (Enhanced.platform queuedOne) = 1
     ∧ u_text <$> pendingUtterances (Enhanced.platform queuedTwo)
       = ["one"; "two"]
     ∧ activeResources (Enhanced.platform queuedTwo) = 2).
Proof. vm_compute. by split_and!. Qed.

(** C1, amended. [speak] never stops or releases what is already
    there: when the call settles every Audio element that existed
    before is as it was (one that was playing still plays), every
    registered object URL is still registered, every utterance spoken
    or waiting is still in the queue, and the number of active
    resources is not smaller than before and larger by at most one. *)
Theorem speak_keeps_active_resources :
  (∀ env text options s,
     let s' := exec (Enhanced.speak env text options) s in
     audios (Enhanced.platform s) `prefix_of` audios (Enhanced.platform s')
     ∧ objectURLs (Enhanced.platform s) ⊆ objectURLs (Enhanced.platform s')
     ∧ pendingUtterances (Enhanced.platform s)
         `prefix_of` pendingUtterances (Enhanced.platform s')
     ∧ (activeResources (Enhanced.platform s)
         ≤ activeResources (Enhanced.platform s'))%nat
     ∧ (activeResources (Enhanced.platform s')
         ≤ activeResources (Enhanced.platform s) + 1)%nat)
  ∧ (∀ env text languageCode t,
       let t' := exec (Legacy.speak env text languageCode) t in
       audios (Legacy.platform t) `prefix_of` audios (Legacy.platform t')
       ∧ objectURLs (Legacy.platform t) ⊆ objectURLs (Legacy.platform t')
       ∧ pendingUtterances (Legacy.platform t)
           `prefix_of` pendingUtterances (Legacy.platform t')
       ∧ (activeResources (Legacy.platform t)
           ≤ activeResources (Legacy.platform t'))%nat
       ∧ (activeResources (Legacy.platform t')
           ≤ activeResources (Legacy.platform t) + 1)%nat).
Proof.
  split.
  - intros env text options [sp er ar [au ur uc [[q vs]|]]].
    all: run_enhanced; cases.
    all: split_and!;
      [ try done; by apply prefix_app_r
      | set_solver
      | try done; by apply prefix_app_r
      | count
      | count ].
  - intros env text lc [sp ar [au ur uc [[q vs]|]]].
    all: run_legacy; cases.
    all: split_and!;
      [ try done; by apply prefix_app_r
      | set_solver
      | try done; by apply prefix_app_r
      | count
      | count ].
Qed.

(** *** Stopping *)

Lemma isPlaying_pause (p : Platform) (audio i : nat) :
  isPlaying (pause audio p) i =
  isPlaying p i && negb (bool_decide (audio = i)).
Proof.
  unfold pause, update_audio, isPlaying.
  destruct (audios p !! audio) as [a|] eqn:Ha; simpl.
  - case_bool_decide as Hi.
    + subst i. rewrite list_lookup_insert_eq by (by eapply lookup_lt_Some).
      simpl. by rewrite andb_false_r.
    + rewrite list_lookup_insert_ne by done. by rewrite andb_true_r.
  - case_bool_decide as Hi.
    + subst i. by rewrite Ha.
    + by rewrite andb_true_r.
Qed.

Lemma isPlaying_synth_cancel (p : Platform) (i : nat) :
  isPlaying (synth_cancel p) i = isPlaying p i.
Proof. unfold synth_cancel, isPlaying. by destruct (speechSynthesis p). Qed.

(** Pausing changes nothing where no element is playing. *)
Lemma pause_idle (p : Platform) (audio : nat) :
  filter (λ a, audio_playing a = true) (audios p) = [] →
  pause audio p = p.
Proof.
  intros Hidle. unfold pause, update_audio.
  destruct (audios p !! audio) as [a|] eqn:Ha; [| done].
  assert (audio_playing a = false) as Hoff.
  { destruct (audio_playing a) eqn:Hon; [| done].
    assert (a ∈ filter (λ a, audio_playing a = true) (audios p)) as Hin.
    { apply list_elem_of_filter. split; [done |].
      by eapply list_elem_of_lookup_2. }
    rewrite Hidle in Hin. by apply elem_of_nil in Hin. }
  destruct p as [au ur uc ss]; destruct a as [src on]; simpl in *; subst on.
  unfold set_audios; simpl. f_equal. by apply list_insert_id.
Qed.

Lemma synth_cancel_idle (p : Platform) :
  pendingUtterances p = [] → synth_cancel p = p.
Proof.
  destruct p as [au ur uc [[q vs]|]]; unfold pendingUtterances, synth_cancel;
    simpl; [| done].
  by intros ->.
Qed.

Lemma activeResources_0 (p : Platform) :
  activeResources p = 0 →
  filter (λ a, audio_playing a = true) (audios p) = []
  ∧ pendingUtterances p = [].
Proof.
  unfold activeResources. intros H.
  split; apply length_zero_iff_nil; lia.
Qed.

Lemma pause_frame (p : Platform) (audio : nat) :
  objectURLs (pause audio p) = objectURLs p
  ∧ speechSynthesis (pause audio p) = speechSynthesis p.
Proof. unfold pause, update_audio. by destruct (audios p !! audio). Qed.

Lemma synth_cancel_frame (p : Platform) :
  objectURLs (synth_cancel p) = objectURLs p
  ∧ getVoices (synth_cancel p) = getVoices p
  ∧ pendingUtterances (synth_cancel p) = []
  ∧ synth_cancel (synth_cancel p) = synth_cancel p.
Proof. destruct p as [au ur uc [[q vs]|]]; by split_and!. Qed.

(** What [stopSpeaking] comes to, in both hooks: pause the held
    element, cancel synthesis. *)
Lemma enhanced_stopSpeaking_unfold (s : Enhanced.State) :
  Enhanced.stopSpeaking s =
  (Normal tt,
   {| Enhanced.isSpeaking := false;
      Enhanced.error := Enhanced.error s;
      Enhanced.audioRef := None;
      Enhanced.platform :=
        synth_cancel
          match Enhanced.audioRef s with
          | Some audio => pause audio (Enhanced.platform s)
          | None => Enhanced.platform s
          end |}).
Proof.
  destruct s as [sp er [a|] p]; run_enhanced; simpl.
  - pose proof (proj2 (pause_frame p a)) as Hss.
    unfold speechSynthesis_in_window, synth_cancel.
    destruct (speechSynthesis p) eqn:E; rewrite Hss; simpl;
      rewrite ?Hss; reflexivity.
  - unfold speechSynthesis_in_window, synth_cancel.
    destruct (speechSynthesis p) eqn:E; simpl; rewrite ?E; reflexivity.
Qed.

Lemma legacy_stopSpeaking_unfold (t : Legacy.State) :
  Legacy.stopSpeaking t =
  (Normal tt,
   {| Legacy.isSpeaking := false;
      Legacy.audioRef := None;
      Legacy.platform :=
        synth_cancel
          match Legacy.audioRef t with
          | Some audio => pause audio (Legacy.platform t)
          | None => Legacy.platform t
          end |}).
Proof.
  destruct t as [sp [a|] p]; run_legacy; simpl.
  - pose proof (proj2 (pause_frame p a)) as Hss.
    unfold speechSynthesis_in_window, synth_cancel.
    destruct (speechSynthesis p) eqn:E; rewrite Hss; simpl;
      rewrite ?Hss; reflexivity.
  - unfold speechSynthesis_in_window, synth_cancel.
    destruct (speechSynthesis p) eqn:E; simpl; rewrite ?E; reflexivity.
Qed.

(** The platform after pausing the held element and cancelling. *)
Lemma stopped_platform (held : option nat) (p : Platform) :
  let p' := synth_cancel
              match held with Some audio => pause audio p | None => p end in
  (∀ i, isPlaying p' i = isPlaying p i && negb (bool_decide (held = Some i)))
  ∧ pendingUtterances p' = []
  ∧ objectURLs p' = objectURLs p
  ∧ getVoices p' = getVoices p
  ∧ synth_cancel p' = p'
  ∧ (activeResources p = 0 → p' = p).
Proof.
  intros p'. subst p'.
  destruct (synth_cancel_frame
              match held with Some audio => pause audio p | None => p end)
    as (Hurl & Hvoices & Hpending & Hidem).
  split_and!; try done.
  - intros i. rewrite isPlaying_synth_cancel. destruct held as [a|].
    + rewrite isPlaying_pause. f_equal. f_equal.
      apply bool_decide_ext. split; congruence.
    + by rewrite andb_true_r.
  - rewrite Hurl. destruct held; [apply pause_frame | done].
  - rewrite Hvoices. destruct held as [a|]; [| done].
    unfold getVoices. by destruct (pause_frame p a) as [_ ->].
  - intros [Hidle Hquiet]%activeResources_0.
    destruct held as [a|].
    + rewrite pause_idle by done. by apply synth_cancel_idle.
    + by apply synth_cancel_idle.
Qed.

(** C4: where the code falls short.  [stopSpeaking] never revokes an
    object URL, in any state.  After a [speak] whose backend audio is
    playing, an explicit stop pauses the element, drops the handle and
    clears the flag, but the temporary URL stays registered, while the
    end of playback and a playback error both revoke it.  The URL also
    stays when [audio.play()] is refused and the hook goes on to local
    synthesis. *)
Theorem stopSpeaking_leaves_object_url :
  (∀ s, objectURLs (Enhanced.platform (exec Enhanced.stopSpeaking s)) =
        objectURLs (Enhanced.platform s))
  ∧ (objectURLs (Enhanced.platform afterOne) = {[0]}
     ∧ Enhanced.audioRef afterOne = Some 0
     ∧ objectURLs
         (Enhanced.platform (exec (Enhanced.audio_ended 0) afterOne)) = ∅
     ∧ objectURLs
         (Enhanced.platform (exec (Enhanced.audio_failed 0) afterOne)) = ∅
     ∧ Enhanced.isSpeaking (exec Enhanced.stopSpeaking afterOne) = false
     ∧ Enhanced.audioRef (exec Enhanced.stopSpeaking afterOne) = None
     ∧ isPlaying (Enhanced.platform (exec Enhanced.stopSpeaking afterOne)) 0
       = false
     ∧ objectURLs (Enhanced.platform (exec Enhanced.stopSpeaking afterOne))
       = {[0]})
  ∧ (Enhanced.isSpeaking afterRefusedPlay = false
     ∧ activeResources (Enhanced.platform afterRefusedPlay) = 0
     ∧ objectURLs (Enhanced.platform afterRefusedPlay) = {[0]}).
Proof.
  refine (conj _ (conj _ _)).
  - intros s. unfold exec. rewrite enhanced_stopSpeaking_unfold. simpl.
    apply (stopped_platform (Enhanced.audioRef s) (Enhanced.platform s)).
  - vm_compute. by repeat split.
  - vm_compute. by repeat split.
Qed.

(** C6, as stated, fails: after two [speak] calls whose audio plays,
    [stopSpeaking] pauses the second element only and the first keeps
    playing, in both hooks.  And with nothing active it can still
    change something besides the flag: after the audio of a [speak] has
    played to its end the hook still holds the element, and
    [stopSpeaking] empties that handle. *)
Lemma stopSpeaking_misses_earlier_audio :
  (isPlaying (Enhanced.platform afterTwo) 0 = true
   ∧ isPlaying (Enhanced.platform afterTwo) 1 = true
   ∧ Enhanced.isSpeaking (exec Enhanced.stopSpeaking afterTwo) = false
   ∧ isPlaying (Enhanced.platform (exec Enhanced.stopSpeaking afterTwo)) 1
     = false
   ∧ isPlaying (Enhanced.platform (exec Enhanced.stopSpeaking afterTwo)) 0
     = true)
  ∧ (isPlaying (Legacy.platform (exec Legacy.stopSpeaking legacyAfterTwo)) 1
     = false
     ∧ isPlaying (Legacy.platform (exec Legacy.stopSpeaking legacyAfterTwo)) 0
       = true)
  ∧ (activeResources (Enhanced.platform afterPlayedOut) = 0
     ∧ Enhanced.audioRef afterPlayedOut = Some 0
     ∧ Enhanced.audioRef (exec Enhanced.stopSpeaking afterPlayedOut) = None).
Proof. vm_compute. by split_and!. Qed.

(** C6, amended. [stopSpeaking] completes normally in every state and
    is idempotent.  It pauses the Audio element held in [audioRef] and
    no other (an element started by an earlier [speak] whose handle was
    overwritten keeps playing), cancels platform synthesis and leaves
    the speaking flag false.  With nothing active it changes nothing
    else, the handle apart: the browser and the error cell are as they
    were, the flag is false and the handle is empty. *)
Theorem stopSpeaking_idempotent :
  (∀ s,
     let s' := exec Enhanced.stopSpeaking s in
     completion Enhanced.stopSpeaking s = Normal tt
     ∧ exec Enhanced.stopSpeaking s' = s'
     ∧ Enhanced.isSpeaking s' = false
     ∧ (∀ i, isPlaying (Enhanced.platform s') i =
             isPlaying (Enhanced.platform s) i
             && negb (bool_decide (Enhanced.audioRef s = Some i)))
     ∧ pendingUtterances (Enhanced.platform s') = []
     ∧ (activeResources (Enhanced.platform s) = 0 →
        s' = {| Enhanced.isSpeaking := false;
                Enhanced.error := Enhanced.error s;
                Enhanced.audioRef := None;
                Enhanced.platform := Enhanced.platform s |}))
  ∧ (∀ t,
       let t' := exec Legacy.stopSpeaking t in
       completion Legacy.stopSpeaking t = Normal tt
       ∧ exec Legacy.stopSpeaking t' = t'
       ∧ Legacy.isSpeaking t' = false
       ∧ (∀ i, isPlaying (Legacy.platform t') i =
               isPlaying (Legacy.platform t) i
               && negb (bool_decide (Legacy.audioRef t = Some i)))
       ∧ pendingUtterances (Legacy.platform t') = []
       ∧ (activeResources (Legacy.platform t) = 0 →
          t' = {| Legacy.isSpeaking := false;
                  Legacy.audioRef := None;
                  Legacy.platform := Legacy.platform t |})).
Proof.
  split.
  - intros s s'. subst s'. unfold exec, completion.
    rewrite !enhanced_stopSpeaking_unfold. simpl.
    destruct (stopped_platform (Enhanced.audioRef s) (Enhanced.platform s))
      as (Hplay & Hpending & _ & _ & Hidem & Hidle).
    split_and!; try done.
    + by rewrite Hidem.
    + intros Hnone. by rewrite (Hidle Hnone).
  - intros t t'. subst t'. unfold exec, completion.
    rewrite !legacy_stopSpeaking_unfold. simpl.
    destruct (stopped_platform (Legacy.audioRef t) (Legacy.platform t))
      as (Hplay & Hpending & _ & _ & Hidem & Hidle).
    split_and!; try done.
    + by rewrite Hidem.
    + intros Hnone. by rewrite (Hidle Hnone).
Qed.

(** On a page where nothing was ever spoken [stopSpeaking] changes
    nothing at all. *)
Lemma stopSpeaking_idle_sample :
  activeResources (Enhanced.platform (Enhanced.mount page)) = 0
  ∧ activeResources (Legacy.platform (Legacy.mount page)) = 0
  ∧ exec Enhanced.stopSpeaking (Enhanced.mount page) = Enhanced.mount page
  ∧ exec Legacy.stopSpeaking (Legacy.mount page) = Legacy.mount page.
Proof.
  destruct stopSpeaking_idempotent as [He Hl].
  split_and!; [reflexivity | reflexivity | |].
  - apply (He (Enhanced.mount page)). reflexivity.
  - apply (Hl (Legacy.mount page)). reflexivity.
Defined.

End SpeechFacts.

(** * Further properties of the code *)

(** ** The capture hook over time *)

Module CaptureFacts.
Import Recognition Capture.

Lemma run_app (l1 l2 : list Action) (r : Session) :
  run (l1 ++ l2) r = run l2 (run l1 r).
Proof. unfold run. by rewrite foldl_app. Qed.

Lemma step_synced (a : Action) (r : Session) :
  synced (cells r) → synced (cells (step a r)).
Proof.
  intros Hr. destruct a; simpl; try done.
  - by apply RecognitionFacts.synced_startListening.
  - apply RecognitionFacts.onresult_transcript.
  - unfold onerror. by repeat case_match.
Qed.

Lemma step_isSupported (a : Action) (r : Session) :
  isSupported (cells (step a r)) = isSupported (cells r).
Proof.
  destruct a; simpl; try done.
  - unfold startListening. by repeat case_match.
  - unfold onresult. by case_match.
  - unfold onerror. by repeat case_match.
Qed.

(** X1. Whatever the hook's functions are called with and whatever the
    recognizer reports, in any order, the transcript the hook shows is
    the one it has accumulated in its ref, and [isSupported] stays what
    the mount found. *)
Theorem shown_transcript_is_accumulated_transcript
    (supported : bool) (actions : list Action) :
  transcript (cells (run actions (mounted supported)))
    = finalTranscriptRef (cells (run actions (mounted supported)))
  ∧ isSupported (cells (run actions (mounted supported))) = supported.
Proof.
  assert (∀ r, synced (cells r) →
               synced (cells (run actions r))
               ∧ isSupported (cells (run actions r)) = isSupported (cells r))
    as Hgen.
  { induction actions as [|a actions IH]; intros r Hr; [done |].
    destruct (IH (step a r) (step_synced a r Hr)) as [H1 H2].
    split; [exact H1 |]. simpl. rewrite H2. apply step_isSupported. }
  destruct (Hgen (mounted supported)) as [H1 H2]; [done |].
  split; [exact H1 | by rewrite H2; destruct supported].
Qed.

Lemma step_event_final (a : Action) (r : Session) :
  isEvent a = true →
  finalTranscriptRef (cells (step a r)) =
  finalTranscriptRef (cells r) +:+ concat (finalsOf a).
Proof.
  destruct a; simpl; try done; intros _;
    rewrite ?JsStringFacts.string_app_empty_r; try done.
  - apply RecognitionFacts.onresult_final.
  - unfold onerror. by repeat case_match.
Qed.

(** X2. Between two calls of the hook's functions the accumulated
    transcript only grows: after any sequence of recognizer events
    (start, end, result, error, no-match) it is what it was, followed by
    the final segments of the result events in arrival order.  An error
    or the end of recognition loses nothing of it. *)
Theorem events_only_append_finals (actions : list Action) (r : Session) :
  Forall (λ a, isEvent a = true) actions →
  finalTranscriptRef (cells (run actions r)) =
  finalTranscriptRef (cells r) +:+ concat (actions ≫= finalsOf).
Proof.
  intros Hev. revert r.
  induction Hev as [|a actions Ha _ IH]; intros r.
  - simpl. by rewrite JsStringFacts.string_app_empty_r.
  - change (run (a :: actions) r) with (run actions (step a r)).
    rewrite IH, (step_event_final a r Ha), bind_cons.
    by rewrite RecognitionFacts.transcript_concat_app,
      JsStringFacts.string_app_assoc.
Qed.

Lemma events_only_append_finals_sample :
  Forall (λ a, isEvent a = true)
    [OnStart; OnResult (Samples.update "hello " true); OnError "network";
     OnResult (Samples.update "world" true); OnEnd]
  ∧ finalTranscriptRef
      (cells (run [OnStart; OnResult (Samples.update "hello " true);
                   OnError "network";
                   OnResult (Samples.update "world" true); OnEnd]
                (mounted true)))
    = "hello world".
Proof.
  assert (Forall (λ a, isEvent a = true)
            [OnStart; OnResult (Samples.update "hello " true);
             OnError "network";
             OnResult (Samples.update "world" true); OnEnd]) as Hev
    by (repeat constructor).
  split; [exact Hev |].
  rewrite (events_only_append_finals _ (mounted true) Hev). reflexivity.
Defined.

Lemma step_event_lang (a : Action) (r : Session) :
  isEvent a = true →
  recognition_lang (cells (step a r)) = recognition_lang (cells r).
Proof.
  destruct a; simpl; try done; intros _.
  - unfold onresult. by case_match.
  - unfold onerror. by repeat case_match.
Qed.

Lemma run_events_lang (actions : list Action) (r : Session) :
  Forall (λ a, isEvent a = true) actions →
  recognition_lang (cells (run actions r)) = recognition_lang (cells r).
Proof.
  intros Hev. revert r.
  induction Hev as [|a actions Ha _ IH]; intros r; [done |].
  change (run (a :: actions) r) with (run actions (step a r)).
  by rewrite IH, step_event_lang.
Qed.

(** X3. A call of [startListening] on a supported, idle hook opens a new
    session: whatever was accumulated before, after the call and any
    recognizer events the accumulated transcript is exactly the final
    segments of those events, and the recognizer's language is the one
    asked for.  Right after the call, before any event, the interim
    transcript is empty.  This holds also when [recognition.start()]
    throws. *)
Theorem startListening_opens_empty_session
    (language : string) (actions : list Action) (r : Session) :
  isSupported (cells r) = true →
  isListening (cells r) = false →
  Forall (λ a, isEvent a = true) actions →
  finalTranscriptRef (cells (run (StartListening language :: actions) r))
    = concat (actions ≫= finalsOf)
  ∧ recognition_lang (cells (run (StartListening language :: actions) r))
    = language
  ∧ interimTranscript (cells (step (StartListening language) r)) = "".
Proof.
  intros Hsup Hidle Hev.
  change (run (StartListening language :: actions) r)
    with (run actions (step (StartListening language) r)).
  rewrite (events_only_append_finals _ _ Hev), (run_events_lang _ _ Hev).
  simpl. unfold startListening. rewrite Hsup, Hidle. simpl.
  by destruct (started r).
Qed.

Lemma startListening_opens_empty_session_sample :
  isSupported (cells (run [OnResult (Samples.update "old" true); OnEnd]
                        (mounted true))) = true
  ∧ finalTranscriptRef
      (cells (run [OnResult (Samples.update "old" true); OnEnd]
                (mounted true))) = "old"
  ∧ finalTranscriptRef
      (cells (run (StartListening "te-IN" :: [OnResult (Samples.update "new" true)])
                (run [OnResult (Samples.update "old" true); OnEnd]
                   (mounted true)))) = "new".
Proof.
  split_and!; [reflexivity | reflexivity |].
  destruct (startListening_opens_empty_session "te-IN"
              [OnResult (Samples.update "new" true)]
              (run [OnResult (Samples.update "old" true); OnEnd]
                 (mounted true))) as [H _].
  - reflexivity.
  - reflexivity.
  - repeat constructor.
  - rewrite H. reflexivity.
Defined.

(** X4. The guard of [startListening] looks at [isListening], which only
    the recognizer's start event sets.  A second call made before that
    event passes the guard, and [recognition.start()] throws on the
    running recognizer: the hook then shows "Failed to start speech
    recognition" although recognition is running, and the recognizer's
    language is the one of the second call. *)
Theorem second_start_before_onstart_reports_failure
    (first second : string) (r : Session) :
  isSupported (cells r) = true →
  isListening (cells r) = false →
  started r = false →
  let r1 := step (StartListening first) r in
  let r2 := step (StartListening second) r1 in
  error (cells r1) = None
  ∧ started r1 = true
  ∧ error (cells r2) = Some "Failed to start speech recognition"
  ∧ started r2 = true
  ∧ isListening (cells r2) = false
  ∧ recognition_lang (cells r2) = second.
Proof.
  intros Hsup Hidle Hnot r1 r2. subst r1 r2. simpl.
  unfold startListening. rewrite Hnot, Hsup, Hidle. simpl.
  rewrite Hsup, Hidle. simpl. done.
Qed.

Lemma second_start_before_onstart_sample :
  isSupported (cells (mounted true)) = true
  ∧ isListening (cells (mounted true)) = false
  ∧ started (mounted true) = false
  ∧ error (cells (run [StartListening "en-US"; StartListening "te-IN"]
                    (mounted true)))
    = Some "Failed to start speech recognition".
Proof.
  split_and!; [reflexivity | reflexivity | reflexivity |].
  apply (second_start_before_onstart_reports_failure "en-US" "te-IN"
           (mounted true)); reflexivity.
Defined.

End CaptureFacts.

(** ** useVoiceInteraction *)

Module VoiceInteractionFacts.
Import VoiceInteraction.

(** X5. In the object [useVoiceInteraction] returns, [error] is the
    error of the text-to-speech hook: the spread of that hook's result
    replaces the [error] of the recognition hook, the one property the
    two results share.  So a recognition error never shows through the
    combined hook, while every other property of either hook does. *)
Theorem combined_error_is_speech_output_error (v : State) :
  result v !! "error" = Some (ofError (Enhanced.error (textToSpeech v)))
  ∧ (∀ code,
       result {| speechRecognition :=
                   Capture.step (Capture.OnError code) (speechRecognition v);
                 textToSpeech := textToSpeech v;
                 isVoiceMode := isVoiceMode v |} !! "error"
       = result v !! "error")
  ∧ dom (recognitionResult (Capture.cells (speechRecognition v)))
      ∩ dom (textToSpeechResult (textToSpeech v)) = {["error"]}
  ∧ delete "error" (recognitionResult (Capture.cells (speechRecognition v)))
      ⊆ result v
  ∧ textToSpeechResult (textToSpeech v) ⊆ result v.
Proof.
  split_and!.
  - reflexivity.
  - intros code. reflexivity.
  - reflexivity.
  - unfold result, spread.
    repeat (apply insert_subseteq_r; [reflexivity |]).
    apply map_subseteq_spec. intros key x Hkey.
    apply lookup_delete_Some in Hkey as [Hne Hkey].
    apply lookup_union_Some_raw. right. split; [| done].
    unfold recognitionResult in Hkey.
    apply elem_of_list_to_map_2 in Hkey.
    repeat (apply elem_of_cons in Hkey as [Hkey | Hkey];
            [simplify_eq; reflexivity |]).
    by apply elem_of_nil in Hkey.
  - unfold result, spread.
    repeat (apply insert_subseteq_r; [reflexivity |]).
    apply map_union_subseteq_l.
Qed.

(** X19. On a platform without speech recognition
    [startVoiceConversation] still turns voice mode on; the recognition
    hook records "Speech recognition not supported", but the object the
    combined hook returns shows neither that error nor any listening:
    its [error] is still the one of the text-to-speech hook. *)
Theorem voice_mode_starts_without_recognition (v : State) :
  Recognition.isSupported (Capture.cells (speechRecognition v)) = false →
  let v' := startVoiceConversation v in
  isVoiceMode v' = true
  ∧ Recognition.error (Capture.cells (speechRecognition v'))
    = Some "Speech recognition not supported"
  ∧ Recognition.isListening (Capture.cells (speechRecognition v'))
    = Recognition.isListening (Capture.cells (speechRecognition v))
  ∧ textToSpeech v' = textToSpeech v
  ∧ result v' !! "isVoiceMode" = Some (VBoolean true)
  ∧ result v' !! "error" = Some (ofError (Enhanced.error (textToSpeech v))).
Proof.
  intros Hno v'. subst v'. unfold startVoiceConversation. simpl.
  unfold Recognition.startListening. rewrite Hno. simpl.
  split_and!; reflexivity.
Qed.

Lemma voice_mode_starts_without_recognition_sample :
  Recognition.isSupported
    (Capture.cells
       (speechRecognition
          {| speechRecognition := Capture.mounted false;
             textToSpeech := Enhanced.mount Samples.page;
             isVoiceMode := false |})) = false
  ∧ result
      (startVoiceConversation
         {| speechRecognition := Capture.mounted false;
            textToSpeech := Enhanced.mount Samples.page;
            isVoiceMode := false |}) !! "error" = Some VNull.
Proof.
  split; [reflexivity |].
  apply (voice_mode_starts_without_recognition
           {| speechRecognition := Capture.mounted false;
              textToSpeech := Enhanced.mount Samples.page;
              isVoiceMode := false |} eq_refl).
Defined.

End VoiceInteractionFacts.

(** ** The components that call the text-to-speech hooks *)

Module CallersFacts.
Import JsMonad Browser Callers SpeechFacts.

Lemma destructure_spread_defaults (options : option Enhanced.Options) :
  Enhanced.destructure
    (Some (spread
             {| Enhanced.languageCode := Some "en-US";
                Enhanced.rate := Some 0.8%Q;
                Enhanced.pitch := None;
                Enhanced.volume := None;
                Enhanced.useBackend := Some true |}
             (default Enhanced.noOptions options)))
  = Enhanced.destructure options.
Proof.
  destruct options as [[[l|] [r|] [p|] [v|] [b|]]|]; reflexivity.
Qed.

(** X6. The defaults that [useSpeakText] spreads under the caller's
    options are the ones [speak] has anyway: [speakText(text, options)]
    runs exactly as [speak(text, options)], for every options object and
    without one.  The panel's own [speakText] differs from a bare
    [speak] only in the language it falls back to, the one selected in
    the panel. *)
Theorem speakText_runs_as_speak
    (env : Env) (text : string) (options : option Enhanced.Options)
    (language : string) (languageCode : option string) (s : Enhanced.State) :
  speakText env text options s = Enhanced.speak env text options s
  ∧ panelSpeakText language env text languageCode s =
      Enhanced.speak env text
        (Some {| Enhanced.languageCode := Some (default language languageCode);
                 Enhanced.rate := None; Enhanced.pitch := None;
                 Enhanced.volume := None; Enhanced.useBackend := None |}) s.
Proof.
  split.
  - unfold speakText, Enhanced.speak.
    by rewrite destructure_spread_defaults.
  - reflexivity.
Qed.

(** X7. In the older hook a request that fails (network failure or a
    status outside 2xx) lowers [isSpeaking] before the fallback
    utterance is queued, and nothing raises it again: the utterance is
    spoken with the flag down.  A click on the speaker button then does
    not stop it: [handleSpeakMessage] sees the flag down and calls
    [speak] again, and with the backend still failing a second utterance
    joins the queue behind the first. *)
Theorem legacy_fallback_speaks_with_flag_down
    (env env' : Env) (text : string) (languageCode : option string)
    (message : Message) (t : Legacy.State) (ss : SpeechSynthesis) :
  speechSynthesis (Legacy.platform t) = Some ss →
  match fetch env with Normal response => ok response = false | Throw _ => True end →
  match fetch env' with Normal response => ok response = false | Throw _ => True end →
  let t' := exec (Legacy.speak env text languageCode) t in
  let t'' := exec (handleSpeakMessage env' message) t' in
  Legacy.isSpeaking t' = false
  ∧ u_text <$> pendingUtterances (Legacy.platform t')
    = (u_text <$> queue ss) ++ [text]
  ∧ handleSpeakMessage env' message t' =
      Legacy.speak env'
        (orElse (encouragement message) (content message)) None t'
  ∧ u_text <$> pendingUtterances (Legacy.platform t'')
    = (u_text <$> queue ss)
      ++ [text; orElse (encouragement message) (content message)]
  ∧ Legacy.isSpeaking t'' = false.
Proof.
  intros Hss Hfail Hfail' t' t''. subst t' t''.
  destruct t as [sp ar [au ur uc ss']]; simpl in Hss; subst ss'.
  destruct ss as [q vs].
  unfold handleSpeakMessage.
  run_legacy. cases; try done.
  all: split_and!; try done.
  all: unfold pendingUtterances; simpl.
  all: rewrite ?fmap_app, <- ?(assoc_L (++)); simpl; done.
Qed.

Lemma legacy_fallback_speaks_with_flag_down_sample :
  speechSynthesis (Legacy.platform (Legacy.mount Samples.page))
    = Some {| queue := [];
              voices := [Samples.samantha; Samples.monica; Samples.googleUS] |}
  ∧ Legacy.isSpeaking
      (exec (Legacy.speak Samples.backendDown "Hi" None)
         (Legacy.mount Samples.page)) = false
  ∧ u_text <$> pendingUtterances
      (Legacy.platform
         (exec (handleSpeakMessage Samples.backendDown
                  {| encouragement := None; content := "Hello" |})
            (exec (Legacy.speak Samples.backendDown "Hi" None)
               (Legacy.mount Samples.page))))
    = ["Hi"; "Hello"].
Proof.
  pose proof (legacy_fallback_speaks_with_flag_down
                Samples.backendDown Samples.backendDown "Hi" None
                {| encouragement := None; content := "Hello" |}
                (Legacy.mount Samples.page)
                {| queue := [];
                   voices := [Samples.samantha; Samples.monica;
                              Samples.googleUS] |}
                eq_refl I I) as (H1 & _ & _ & H4 & _).
  split_and!; [reflexivity | exact H1 | exact H4].
Defined.

End CallersFacts.

(** ** The enhanced hook over time *)

Module EnhancedTraceFacts.
Import JsMonad Browser EnhancedTrace SpeechFacts.

Lemma consistent_extend held elements urls count playing :
  consistent held elements urls count →
  consistent (Some (length elements))
    (elements ++ [{| audio_src := count; audio_playing := playing |}])
    ({[count]} ∪ urls) (S count).
Proof.
  intros (Hheld & Hurls & Hsrc & Hnodup & Hplay).
  split_and!.
  - intros audio [= <-]. rewrite length_app. simpl. lia.
  - intros url Hurl. apply elem_of_union in Hurl as [Hurl | Hurl].
    + apply elem_of_singleton in Hurl. lia.
    + apply Hurls in Hurl. lia.
  - apply Forall_app. split.
    + eapply Forall_impl; [exact Hsrc |]. simpl. intros; lia.
    + constructor; [simpl; lia | constructor].
  - rewrite fmap_app. apply NoDup_app. split_and!; [done | | ].
    + intros src Hin Hcount. simpl in Hcount.
      apply elem_of_cons in Hcount as [-> | Hnil];
        [| by apply elem_of_nil in Hnil].
      apply list_elem_of_fmap in Hin as (a & Ha & Hin).
      rewrite Forall_forall in Hsrc. specialize (Hsrc a Hin). simpl in Hsrc. lia.
    + simpl. apply NoDup_singleton.
  - apply Forall_app. split.
    + eapply Forall_impl; [exact Hplay |]. simpl. intros a Ha Hon.
      apply elem_of_union. right. by apply Ha.
    + constructor; [simpl; intros _; set_solver | constructor].
Qed.

Lemma consistent_held held held' elements urls count :
  (∀ audio, held' = Some audio → audio < length elements) →
  consistent held elements urls count →
  consistent held' elements urls count.
Proof. intros Hheld' (_ & H). by split. Qed.

Lemma consistent_stop held elements urls count audio a :
  elements !! audio = Some a →
  consistent held elements urls count →
  consistent held (<[audio := set_playing false a]> elements) urls count.
Proof.
  intros Ha (Hheld & Hurls & Hsrc & Hnodup & Hplay).
  assert (audio_src <$> <[audio := set_playing false a]> elements
          = audio_src <$> elements) as Hsame.
  { rewrite list_fmap_insert. apply list_insert_id.
    by rewrite list_lookup_fmap, Ha. }
  split_and!.
  - intros i Hi. rewrite length_insert. by apply Hheld.
  - done.
  - apply Forall_insert; [done |]. simpl.
    rewrite Forall_forall in Hsrc. apply Hsrc.
    by eapply list_elem_of_lookup_2.
  - by rewrite Hsame.
  - apply Forall_insert; [done |]. simpl. done.
Qed.

Lemma consistent_release held elements urls count audio a :
  elements !! audio = Some a →
  consistent held elements urls count →
  consistent held (<[audio := set_playing false a]> elements)
    (urls ∖ {[audio_src a]}) count.
Proof.
  intros Ha Hc.
  pose proof (consistent_stop _ _ _ _ _ _ Ha Hc)
    as (Hheld & Hurls & Hsrc & Hnodup & Hplay).
  destruct Hc as (_ & _ & _ & Hnodup0 & Hplay0).
  split_and!; try done.
  - intros url Hurl. apply Hurls.
    apply elem_of_difference in Hurl. tauto.
  - apply Forall_forall. intros b Hb Hon.
    apply list_elem_of_lookup in Hb as [j Hj].
    destruct (decide (j = audio)) as [-> | Hne].
    + rewrite list_lookup_insert_eq in Hj by (by eapply lookup_lt_Some).
      by simplify_eq.
    + rewrite list_lookup_insert_ne in Hj by done.
      apply elem_of_difference. split.
      * rewrite Forall_forall in Hplay0. apply Hplay0; [| done].
        by eapply list_elem_of_lookup_2.
      * intros Heq%elem_of_singleton. apply Hne.
        eapply (NoDup_lookup (audio_src <$> elements)); [done | |].
        -- by rewrite list_lookup_fmap, Hj.
        -- rewrite list_lookup_fmap, Ha. simpl. by rewrite Heq.
Qed.

Lemma step_wellFormed (a : Action) (s : Enhanced.State) :
  wellFormed s → wellFormed (step a s).
Proof.
  unfold wellFormed.
  destruct s as [sp er ar [au ur uc [[q vs]|]]]; simpl; intros Hc.
  all: destruct a as [env text options | | audio | audio | | code]; simpl.
  all: run_enhanced; unfold endPlayback, pause, update_audio in *; cases.
  all: simpl; try (eapply consistent_held; [done |]).
  all: eauto using consistent_extend, consistent_stop, consistent_release.
Qed.

Lemma fresh_page_wellFormed (synthesis : option (list Voice)) :
  wellFormed (Enhanced.mount (freshPage synthesis)).
Proof.
  unfold wellFormed, consistent. simpl.
  split_and!; try done. apply NoDup_nil_2.
Qed.

Lemma run_wellFormed (actions : list Action) (s : Enhanced.State) :
  wellFormed s → wellFormed (run actions s).
Proof.
  revert s. induction actions as [|a actions IH]; intros s Hs; [done |].
  apply IH. by apply step_wellFormed.
Qed.

(** X8. The browser's books and the hook's handle stay consistent
    through every call and event, in any order, from a fresh page on:
    [audioRef] names an existing Audio element, no two elements share an
    object URL, and the URL of an element that is playing is registered;
    the hook never revokes a URL that is still being played. *)
Theorem bookkeeping_stays_consistent
    (synthesis : option (list Voice)) (actions : list Action) :
  wellFormed (run actions (Enhanced.mount (freshPage synthesis)))
  ∧ Forall
      (λ a, audio_playing a = true →
            audio_src a ∈
              objectURLs
                (Enhanced.platform
                   (run actions (Enhanced.mount (freshPage synthesis)))))
      (audios
         (Enhanced.platform
            (run actions (Enhanced.mount (freshPage synthesis))))).
Proof.
  pose proof (run_wellFormed actions _ (fresh_page_wellFormed synthesis))
    as Hwf.
  split; [exact Hwf | apply Hwf].
Qed.

(** What a call whose backend audio plays comes to. *)
Lemma speak_plays_backend_audio env text options (s : Enhanced.State) :
  Enhanced.b_useBackend (Enhanced.destructure options) = true →
  backendAudioPlays env = true →
  Enhanced.speak env text options s =
  (Normal tt,
   {| Enhanced.isSpeaking := true;
      Enhanced.error := None;
      Enhanced.audioRef := Some (length (audios (Enhanced.platform s)));
      Enhanced.platform :=
        {| audios :=
             audios (Enhanced.platform s)
             ++ [{| audio_src := urlCount (Enhanced.platform s);
                    audio_playing := true |}];
           objectURLs :=
             {[urlCount (Enhanced.platform s)]}
             ∪ objectURLs (Enhanced.platform s);
           urlCount := S (urlCount (Enhanced.platform s));
           speechSynthesis := speechSynthesis (Enhanced.platform s) |} |}).
Proof.
  intros Hpref Hplays.
  destruct s as [sp er ar [au ur uc ss]].
  unfold backendAudioPlays in Hplays.
  run_enhanced. unfold Enhanced.destructure in *. cases; try done.
  all: try (simpl in Hplays; rewrite ?andb_false_r in Hplays; done).
  all: exfalso; rewrite ?andb_true_iff in Hplays; destruct_and?;
    match goal with H : bool_decide _ = true |- _ =>
      apply bool_decide_unpack in H as [? ?]; congruence end.
Qed.

(** What the end or failure of the element just created comes to. *)
Lemma last_element_stops (l : list Audio) (a : Audio) (p : Platform) :
  endPlayback (length l) (set_audios (l ++ [a]) p) =
  set_audios (l ++ [set_playing false a]) p.
Proof.
  unfold endPlayback, update_audio. simpl.
  rewrite list_lookup_middle by done.
  rewrite insert_app_r_alt, Nat.sub_diag by done.
  reflexivity.
Qed.

(** X9. Acquire and release.  From a consistent state, a [speak] whose
    backend audio plays registers one new object URL and holds one new
    playing element; when that element ends, or fails, the URL is
    revoked again, the registered URLs and the number of active
    resources are what they were before the call, and the flag is down.
    The failure handler does its cleaning up and then throws. *)
Theorem backend_playback_is_released_at_its_end
    (env : Env) (text : string) (options : option Enhanced.Options)
    (s : Enhanced.State) :
  wellFormed s →
  Enhanced.b_useBackend (Enhanced.destructure options) = true →
  backendAudioPlays env = true →
  let audio := length (audios (Enhanced.platform s)) in
  let s1 := exec (Enhanced.speak env text options) s in
  let ended := exec (Enhanced.audio_ended audio) s1 in
  let failed := exec (Enhanced.audio_failed audio) s1 in
  Enhanced.audioRef s1 = Some audio
  ∧ isPlaying (Enhanced.platform s1) audio = true
  ∧ objectURLs (Enhanced.platform s1) =
      ({[urlCount (Enhanced.platform s)]} ∪ objectURLs (Enhanced.platform s))
  ∧ (urlCount (Enhanced.platform s) ∉ objectURLs (Enhanced.platform s))
  ∧ activeResources (Enhanced.platform s1) =
      S (activeResources (Enhanced.platform s))
  ∧ completion (Enhanced.audio_ended audio) s1 = Normal tt
  ∧ completion (Enhanced.audio_failed audio) s1 =
      Throw "Failed to play backend audio"
  ∧ failed = ended
  ∧ Enhanced.isSpeaking ended = false
  ∧ isPlaying (Enhanced.platform ended) audio = false
  ∧ objectURLs (Enhanced.platform ended) = objectURLs (Enhanced.platform s)
  ∧ activeResources (Enhanced.platform ended) =
      activeResources (Enhanced.platform s).
Proof.
  intros (_ & Hurls & _) Hpref Hplays audio s1 ended failed.
  subst audio s1 ended failed. unfold exec, completion.
  rewrite (speak_plays_backend_audio env text options s Hpref Hplays).
  destruct s as [sp er ar [au ur uc ss]]. simpl in *.
  assert (uc ∉ ur) as Hfresh by (intros Hin; apply Hurls in Hin; lia).
  run_enhanced. simpl. rewrite !list_lookup_middle by done. simpl.
  change {| audios := au ++ [{| audio_src := uc; audio_playing := true |}];
            objectURLs := {[uc]} ∪ ur; urlCount := S uc;
            speechSynthesis := ss |}
    with (set_audios (au ++ [{| audio_src := uc; audio_playing := true |}])
            {| audios := au; objectURLs := {[uc]} ∪ ur; urlCount := S uc;
               speechSynthesis := ss |}).
  rewrite !last_element_stops. simpl.
  unfold isPlaying, activeResources, pendingUtterances. simpl.
  rewrite !list_lookup_middle by done. simpl.
  rewrite !BrowserFacts.playing_count_app. simpl.
  assert (({[uc]} ∪ ur) ∖ {[uc]} = ur) as Hback.
  { apply set_eq. intros url.
    rewrite elem_of_difference, elem_of_union, elem_of_singleton.
    split; [tauto |]. intros Hin. split; [tauto | congruence]. }
  rewrite Hback. split_and!; try done; lia.
Qed.

Lemma backend_playback_is_released_sample :
  wellFormed Samples.afterOne
  ∧ backendAudioPlays Samples.backendPlays = true
  ∧ objectURLs
      (Enhanced.platform
         (exec (Enhanced.audio_ended 1)
            (exec (Enhanced.speak Samples.backendPlays "two" None)
               Samples.afterOne)))
    = objectURLs (Enhanced.platform Samples.afterOne).
Proof.
  assert (wellFormed Samples.afterOne) as Hwf.
  { apply (run_wellFormed [Speak Samples.backendPlays "one" None]).
    apply fresh_page_wellFormed. }
  split_and!; [exact Hwf | reflexivity |].
  apply (backend_playback_is_released_at_its_end Samples.backendPlays "two"
           None Samples.afterOne Hwf eq_refl eq_refl).
Defined.

(** What a call whose playback is refused comes to. *)
Lemma speak_refused_playback env text options (s : Enhanced.State) ss :
  speechSynthesis (Enhanced.platform s) = Some ss →
  Enhanced.b_useBackend (Enhanced.destructure options) = true →
  backendAudioRefused env = true →
  ∃ u, u_text u = text ∧
  Enhanced.speak env text options s =
  (Normal tt,
   {| Enhanced.isSpeaking := true;
      Enhanced.error := None;
      Enhanced.audioRef := Some (length (audios (Enhanced.platform s)));
      Enhanced.platform :=
        {| audios :=
             audios (Enhanced.platform s)
             ++ [{| audio_src := urlCount (Enhanced.platform s);
                    audio_playing := false |}];
           objectURLs :=
             {[urlCount (Enhanced.platform s)]}
             ∪ objectURLs (Enhanced.platform s);
           urlCount := S (urlCount (Enhanced.platform s));
           speechSynthesis :=
             Some {| queue := queue ss ++ [u]; voices := voices ss |} |} |}).
Proof.
  intros Hss Hpref Hrefused.
  destruct s as [sp er ar [au ur uc ss']]; simpl in *; subst ss'.
  destruct ss as [q vs].
  unfold backendAudioRefused in Hrefused.
  run_enhanced. unfold Enhanced.destructure in *. cases; try done.
  all: try (simpl in Hrefused; rewrite ?andb_false_r in Hrefused; done).
  all: try (eexists; split; [| reflexivity]; done).
  all: exfalso; rewrite ?andb_true_iff in Hrefused; destruct_and?;
    match goal with H : bool_decide _ = true |- _ =>
      apply bool_decide_unpack in H as [? ?]; congruence end.
Qed.

(** X11. When [audio.play()] is refused, [speak] goes on to local
    synthesis with the element and its object URL left behind: the hook
    holds an element that does not play, the utterance is queued and the
    flag is up.  If the element then reports an error, its handler
    revokes the URL but also lowers the flag, while the utterance is
    still in the queue. *)
Theorem refused_playback_then_element_error
    (env : Env) (text : string) (options : option Enhanced.Options)
    (s : Enhanced.State) (ss : SpeechSynthesis) :
  wellFormed s →
  speechSynthesis (Enhanced.platform s) = Some ss →
  Enhanced.b_useBackend (Enhanced.destructure options) = true →
  backendAudioRefused env = true →
  let audio := length (audios (Enhanced.platform s)) in
  let s1 := exec (Enhanced.speak env text options) s in
  let s2 := exec (Enhanced.audio_failed audio) s1 in
  Enhanced.audioRef s1 = Some audio
  ∧ isPlaying (Enhanced.platform s1) audio = false
  ∧ Enhanced.isSpeaking s1 = true
  ∧ (urlCount (Enhanced.platform s) ∈ objectURLs (Enhanced.platform s1))
  ∧ u_text <$> pendingUtterances (Enhanced.platform s1)
    = (u_text <$> queue ss) ++ [text]
  ∧ Enhanced.isSpeaking s2 = false
  ∧ objectURLs (Enhanced.platform s2) = objectURLs (Enhanced.platform s)
  ∧ pendingUtterances (Enhanced.platform s2)
    = pendingUtterances (Enhanced.platform s1).
Proof.
  intros (_ & Hurls & _) Hss Hpref Hrefused audio s1 s2. subst audio s1 s2.
  destruct (speak_refused_playback env text options s ss Hss Hpref Hrefused)
    as (u & Hu & Hspeak).
  unfold exec. rewrite Hspeak.
  destruct s as [sp er ar [au ur uc ss']]; simpl in *; subst ss'.
  assert (uc ∉ ur) as Hfresh by (intros Hin; apply Hurls in Hin; lia).
  assert (({[uc]} ∪ ur) ∖ {[uc]} = ur) as Hback.
  { apply set_eq. intros url.
    rewrite elem_of_difference, elem_of_union, elem_of_singleton.
    split; [tauto |]. intros Hin. split; [tauto | congruence]. }
  run_enhanced. simpl. rewrite !list_lookup_middle by done. simpl.
  change {| audios := au ++ [{| audio_src := uc; audio_playing := false |}];
            objectURLs := {[uc]} ∪ ur; urlCount := S uc;
            speechSynthesis :=
              Some {| queue := queue ss ++ [u]; voices := voices ss |} |}
    with (set_audios (au ++ [{| audio_src := uc; audio_playing := false |}])
            {| audios := au; objectURLs := {[uc]} ∪ ur; urlCount := S uc;
               speechSynthesis :=
                 Some {| queue := queue ss ++ [u]; voices := voices ss |} |}).
  rewrite !last_element_stops. simpl.
  unfold isPlaying, pendingUtterances. simpl.
  rewrite !list_lookup_middle by done. simpl.
  rewrite Hback, fmap_app. simpl. rewrite Hu.
  split_and!; try done. apply elem_of_union. left. by apply elem_of_singleton.
Qed.

Lemma refused_playback_then_element_error_sample :
  wellFormed (Enhanced.mount Samples.page)
  ∧ backendAudioRefused Samples.backendUnplayable = true
  ∧ Enhanced.isSpeaking
      (exec (Enhanced.audio_failed 0)
         (exec (Enhanced.speak Samples.backendUnplayable "Hi" None)
            (Enhanced.mount Samples.page))) = false
  ∧ u_text <$> pendingUtterances
      (Enhanced.platform
         (exec (Enhanced.speak Samples.backendUnplayable "Hi" None)
            (Enhanced.mount Samples.page))) = ["Hi"].
Proof.
  pose proof (refused_playback_then_element_error
                Samples.backendUnplayable "Hi" None
                (Enhanced.mount Samples.page)
                {| queue := [];
                   voices := [Samples.samantha; Samples.monica;
                              Samples.googleUS] |}
                (fresh_page_wellFormed _) eq_refl eq_refl eq_refl)
    as (_ & _ & _ & _ & H5 & H6 & _).
  split_and!; [apply fresh_page_wellFormed | reflexivity | exact H6 | exact H5].
Defined.

End EnhancedTraceFacts.

(** ** Recording *)

Module RecorderFacts.
Import JsMonad Recorder SpeechFacts.

Ltac run_recorder :=
  unfold startRecording, stopRecording, cancelRecording, onstop,
    ondataavailable, setIsRecording, setIsProcessing, setMediaRecorderRef,
    setAudioChunksRef, newStream, newRecorder, set_recording, stopTracks in *;
  run.

Lemma stopRecording_idle (env : Env) (s : State) :
  idle s → stopRecording env s = (Throw "No active recording found", s).
Proof.
  unfold idle. intros Hidle. run_recorder.
  destruct (current s) as [[i r]|]; [| done]. by rewrite Hidle.
Qed.

(** What stopping an active recording comes to. *)
Lemma stopRecording_active (env : Env) (s : State) (i : nat) (r : MediaRecorder) :
  current s = Some (i, r) → recording r = true →
  stopRecording env s =
  let stopped :=
    {| isRecording := false; isProcessing := false;
       mediaRecorderRef := Some i;
       audioChunksRef :=
         audioChunksRef s
         ++ (if decide (0 < lastData env) then [lastData env] else []);
       streams := streams s;
       recorders :=
         <[i := {| stream := stream r; recording := false |}]> (recorders s) |} in
  match speechToText env with
  | Normal text =>
      (Normal (if Browser.truthy text then default "" text else ""),
       set_streams (<[stream r := false]> (streams s)) stopped)
  | Throw _ => (Throw "Failed to convert speech to text", stopped)
  end.
Proof.
  intros Hcur Hrec. unfold current in Hcur.
  destruct s as [ir ip [j|] ch st recs]; simpl in *; [| done].
  destruct (recs !! j) as [r'|] eqn:Hj; simpl in *; [| done].
  simplify_eq.
  assert (i < length recs) as Hlt by (by eapply lookup_lt_Some).
  run_recorder. unfold current. simpl. rewrite Hj. simpl. rewrite Hrec.
  simpl. rewrite Hj. simpl.
  destruct (decide (0 < lastData env)); simpl;
    destruct (speechToText env); simpl;
    rewrite ?list_lookup_insert_eq by done; simpl;
    rewrite ?app_nil_r; reflexivity.
Qed.

Lemma current_stopped (s : State) (i : nat) (r : MediaRecorder) l b :
  current s = Some (i, r) →
  current {| isRecording := b; isProcessing := b; mediaRecorderRef := Some i;
             audioChunksRef := l; streams := streams s;
             recorders :=
               <[i := {| stream := stream r; recording := false |}]>
                 (recorders s) |}
  = Some (i, {| stream := stream r; recording := false |}).
Proof.
  unfold current. intros Hcur.
  destruct (mediaRecorderRef s) as [j|]; [| done].
  destruct (recorders s !! j) as [r'|] eqn:Hj; simpl in *; [| done].
  simplify_eq. rewrite list_lookup_insert_eq by (by eapply lookup_lt_Some).
  done.
Qed.

(** What cancelling comes to. *)
Lemma cancelRecording_unfold (s : State) :
  cancelRecording s =
  (Normal tt,
   match current s with
   | Some (i, r) =>
       if recording r then
         {| isRecording := false; isProcessing := false;
            mediaRecorderRef := mediaRecorderRef s; audioChunksRef := [];
            streams := <[stream r := false]> (streams s);
            recorders :=
              <[i := {| stream := stream r; recording := false |}]>
                (recorders s) |}
       else
         {| isRecording := false; isProcessing := false;
            mediaRecorderRef := mediaRecorderRef s; audioChunksRef := [];
            streams := streams s; recorders := recorders s |}
   | None =>
       {| isRecording := false; isProcessing := false;
          mediaRecorderRef := mediaRecorderRef s; audioChunksRef := [];
          streams := streams s; recorders := recorders s |}
   end).
Proof.
  destruct s as [ir ip [j|] ch st recs]; run_recorder; unfold current; simpl;
    [| done].
  destruct (recs !! j) as [r|] eqn:Hj; simpl; [| done].
  destruct (recording r); simpl; [| done]. by rewrite Hj.
Qed.

(** X12. A recording can be stopped once.  [stopRecording] without a
    recorder that is recording rejects with "No active recording found"
    and changes nothing; that is the case on a fresh hook, after
    [cancelRecording], and after any earlier [stopRecording], whether it
    delivered a transcription or failed. *)
Theorem recording_stops_once (env env' : Env) (s : State) :
  stopRecording env mount = (Throw "No active recording found", mount)
  ∧ stopRecording env' (exec (stopRecording env) s)
    = (Throw "No active recording found", exec (stopRecording env) s)
  ∧ stopRecording env' (exec cancelRecording s)
    = (Throw "No active recording found", exec cancelRecording s).
Proof.
  split_and!.
  - reflexivity.
  - apply stopRecording_idle. unfold exec.
    destruct (current s) as [[i r]|] eqn:Hcur.
    + destruct (recording r) eqn:Hrec.
      * rewrite (stopRecording_active env s i r Hcur Hrec).
        simpl. unfold idle.
        destruct (speechToText env); simpl.
        -- unfold set_streams, current. simpl.
           pose proof (current_stopped s i r [] false Hcur) as Hc.
           unfold current in Hc. simpl in Hc. by rewrite Hc.
        -- by rewrite (current_stopped s i r _ false Hcur).
      * rewrite stopRecording_idle by (unfold idle; rewrite Hcur; done).
        simpl. unfold idle. by rewrite Hcur.
    + rewrite stopRecording_idle by (unfold idle; rewrite Hcur; done).
      simpl. unfold idle. by rewrite Hcur.
  - apply stopRecording_idle. unfold exec. rewrite cancelRecording_unfold.
    simpl. unfold idle.
    destruct (current s) as [[i r]|] eqn:Hcur.
    + destruct (recording r) eqn:Hrec.
      * pose proof (current_stopped s i r [] false Hcur) as Hc.
        unfold current in *. simpl in *.
        destruct (mediaRecorderRef s) as [j|]; [| done].
        destruct (recorders s !! j) as [r'|] eqn:Hj; simpl in *; [| done].
        simplify_eq. by rewrite Hc.
      * unfold current in *. simpl. rewrite Hcur. done.
    + unfold current in *. simpl. by rewrite Hcur.
Qed.



(** X14. [startRecording] never touches what is already there: every
    stream and recorder that existed is as it was, so a recorder that
    is still recording goes on recording, out of the hook's reach.  If
    the microphone is refused the call rejects with "Could not access
    microphone. Please check permissions." and nothing has changed.  If
    the recorder cannot be constructed it rejects in the same way, and
    the stream just granted stays live with nothing holding it.
    Otherwise the hook holds a new recorder that records a new live
    stream, with no chunks yet and [isRecording] true. *)
Theorem startRecording_outcomes (env : Env) (s : State) :
  let s' := exec (startRecording env) s in
  streams s `prefix_of` streams s'
  ∧ recorders s `prefix_of` recorders s'
  ∧ match getUserMedia env, newMediaRecorder env with
    | Throw _, _ =>
        startRecording env s =
          (Throw "Could not access microphone. Please check permissions.", s)
    | Normal _, Throw _ =>
        completion (startRecording env) s =
          Throw "Could not access microphone. Please check permissions."
        ∧ s' = set_streams (streams s ++ [true]) s
        ∧ liveStreams s' = S (liveStreams s)
    | Normal _, Normal _ =>
        completion (startRecording env) s = Normal tt
        ∧ isRecording s' = true
        ∧ isProcessing s' = isProcessing s
        ∧ audioChunksRef s' = []
        ∧ current s' =
            Some (length (recorders s),
                  {| stream := length (streams s); recording := true |})
        ∧ streams s' = streams s ++ [true]
        ∧ recorders s' =
            recorders s
            ++ [{| stream := length (streams s); recording := true |}]
        ∧ liveStreams s' = S (liveStreams s)
        ∧ activeRecorders s' = S (activeRecorders s)
    end.
Proof.
  destruct s as [ir ip ref ch st recs].
  unfold liveStreams, activeRecorders, current.
  run_recorder. simpl.
  destruct (getUserMedia env); simpl; [| done].
  destruct (newMediaRecorder env); simpl.
  - rewrite !list_lookup_middle by done. simpl.
    rewrite !insert_app_r_alt, !Nat.sub_diag by done. simpl.
    rewrite !list_lookup_middle by done. simpl.
    rewrite !filter_app, !length_app. simpl.
    split_and!; try done; try (by apply prefix_app_r); lia.
  - rewrite !filter_app, !length_app. simpl.
    split_and!; try done; try (by apply prefix_app_r); lia.
Qed.

(** X15. [cancelRecording] always completes and is idempotent.  It
    leaves both flags false and no chunks; a recorder the hook holds is
    inactive afterwards, and if it was recording the tracks of its
    stream are stopped.  Recorders and streams the hook does not hold
    are not touched. *)
Theorem cancelRecording_resets (s : State) :
  let s' := exec cancelRecording s in
  completion cancelRecording s = Normal tt
  ∧ exec cancelRecording s' = s'
  ∧ isRecording s' = false
  ∧ isProcessing s' = false
  ∧ audioChunksRef s' = []
  ∧ mediaRecorderRef s' = mediaRecorderRef s
  ∧ idle s'
  ∧ match current s with
    | Some (i, r) =>
        current s' = Some (i, {| stream := stream r; recording := false |})
        ∧ streams s' =
            (if recording r then <[stream r := false]> (streams s)
             else streams s)
        ∧ recorders s' =
            (if recording r
             then <[i := {| stream := stream r; recording := false |}]>
                    (recorders s)
             else recorders s)
    | None => streams s' = streams s ∧ recorders s' = recorders s
    end.
Proof.
  intros s'. subst s'. unfold exec, completion.
  rewrite !cancelRecording_unfold. simpl.
  destruct (current s) as [[i r]|] eqn:Hcur.
  - pose proof (current_stopped s i r [] false Hcur) as Hc.
    assert (mediaRecorderRef s = Some i) as Href.
    { unfold current in Hcur. destruct (mediaRecorderRef s); [| done].
      destruct (recorders s !! n); simpl in *; by simplify_eq. }
    destruct (recording r) eqn:Hrec.
    + assert (current
                {| isRecording := false; isProcessing := false;
                   mediaRecorderRef := mediaRecorderRef s;
                   audioChunksRef := [];
                   streams := <[stream r:=false]> (streams s);
                   recorders :=
                     <[i:={| stream := stream r; recording := false |}]>
                       (recorders s) |}
              = Some (i, {| stream := stream r; recording := false |})) as Hc'.
      { unfold current in *. simpl in *. by rewrite Href. }
      unfold idle. rewrite Hc'. simpl. split_and!; done.
    + assert (current
                {| isRecording := false; isProcessing := false;
                   mediaRecorderRef := mediaRecorderRef s;
                   audioChunksRef := []; streams := streams s;
                   recorders := recorders s |} = Some (i, r)) as Hc'.
      { unfold current in *. simpl in *. done. }
      unfold idle. rewrite Hc', Hrec. simpl.
      split_and!; try done. by destruct r; simpl in *; subst.
  - assert (current
              {| isRecording := false; isProcessing := false;
                 mediaRecorderRef := mediaRecorderRef s;
                 audioChunksRef := []; streams := streams s;
                 recorders := recorders s |} = None) as Hc'.
    { unfold current in *. simpl in *. done. }
    unfold idle. rewrite Hc'. split_and!; done.
Qed.

End RecorderFacts.

(** ** VocabularyPanel and LessonPanel *)

Module PanelFacts.
Import Vocabulary Lesson.

(** X16. [toggleWordExpansion] flips the membership of the word it is
    given and of no other; toggling the same word twice gives the set
    back. *)
Theorem toggleWordExpansion_flips (wordIndex : nat) (expandedWords : gset nat) :
  (wordIndex ∈ toggleWordExpansion wordIndex expandedWords
   ↔ wordIndex ∉ expandedWords)
  ∧ toggleWordExpansion wordIndex expandedWords ∖ {[wordIndex]}
    = expandedWords ∖ {[wordIndex]}
  ∧ toggleWordExpansion wordIndex
      (toggleWordExpansion wordIndex expandedWords) = expandedWords.
Proof.
  unfold toggleWordExpansion.
  destruct (decide (wordIndex ∈ expandedWords)) as [Hin | Hout].
  - rewrite decide_False by set_solver.
    split_and!; [set_solver | set_solver |].
    apply set_eq. intros i. destruct (decide (i = wordIndex)); set_solver.
  - rewrite decide_True by set_solver.
    split_and!; set_solver.
Qed.

Lemma nextExercise_frame (s : State) :
  exercises (nextExercise s) = exercises s
  ∧ userAnswers (nextExercise s) = userAnswers s.
Proof. unfold nextExercise. by case_decide. Qed.

Lemma nextExercise_current (s : State) :
  currentExercise s < length (exercises s) →
  currentExercise (nextExercise s)
  = Nat.min (currentExercise s + 1) (length (exercises s) - 1).
Proof.
  intros Hlt. unfold nextExercise. case_decide; simpl; lia.
Qed.

(** X17. [nextExercise] never leaves the list of exercises: from a
    current exercise that exists, pressing it [n] times leads to
    exercise [min (current + n) (last)], and the exercises and the
    answers given so far stay as they are. *)
Theorem nextExercise_stays_in_range (n : nat) (s : State) :
  currentExercise s < length (exercises s) →
  currentExercise (Nat.iter n nextExercise s)
    = Nat.min (currentExercise s + n) (length (exercises s) - 1)
  ∧ currentExercise (Nat.iter n nextExercise s) < length (exercises s)
  ∧ exercises (Nat.iter n nextExercise s) = exercises s
  ∧ userAnswers (Nat.iter n nextExercise s) = userAnswers s.
Proof.
  intros Hlt. induction n as [|n (IH1 & IH2 & IH3 & IH4)]; simpl.
  - split_and!; try done. lia.
  - destruct (nextExercise_frame (Nat.iter n nextExercise s)) as [He Ha].
    rewrite He, Ha, IH3, IH4.
    rewrite nextExercise_current by (by rewrite IH3).
    rewrite IH1, IH3. split_and!; try done; lia.
Qed.

Lemma nextExercise_stays_in_range_sample :
  currentExercise
    {| exercises := [{| exercise_id := "a"; correct_answer := Some "is" |};
                     {| exercise_id := "b"; correct_answer := Some "are" |}];
       currentExercise := 0; userAnswers := ∅; showResults := true |}
  < 2
  ∧ currentExercise
      (Nat.iter 5 nextExercise
         {| exercises := [{| exercise_id := "a"; correct_answer := Some "is" |};
                          {| exercise_id := "b"; correct_answer := Some "are" |}];
            currentExercise := 0; userAnswers := ∅; showResults := true |})
    = 1.
Proof.
  assert (0 < 2) as H by lia.
  split; [exact H |].
  apply (nextExercise_stays_in_range 5
           {| exercises := [{| exercise_id := "a"; correct_answer := Some "is" |};
                            {| exercise_id := "b"; correct_answer := Some "are" |}];
              currentExercise := 0; userAnswers := ∅; showResults := true |} H).
Defined.

(** X18. The score follows the last answer given to the current exercise
    and nothing else: after [handleAnswerChange] on the current
    exercise the score is 100 exactly when that answer is the correct
    one, and an answer to another exercise leaves the score as it was.
    An unanswered exercise without a [correct_answer] scores 100,
    unless its id is the name of a member that every object inherits
    (such as "constructor"): then the lookup in [userAnswers] finds
    that member and the score is 0.  The score is only ever 0 or 100,
    so [getScoreColor] never returns the colour of the middle band. *)
Theorem score_follows_current_answer (s : State) (ex : Exercise) :
  exercises s !! currentExercise s = Some ex →
  (∀ answer,
     calculateScore (handleAnswerChange (exercise_id ex) answer s)
     = if decide (Some answer = correct_answer ex) then 100%Z else 0%Z)
  ∧ (∀ first last,
       calculateScore
         (handleAnswerChange (exercise_id ex) last
            (handleAnswerChange (exercise_id ex) first s))
       = calculateScore (handleAnswerChange (exercise_id ex) last s))
  ∧ (∀ other answer,
       other ≠ exercise_id ex →
       calculateScore (handleAnswerChange other answer s) = calculateScore s)
  ∧ (userAnswers s !! exercise_id ex = None →
     exercise_id ex ∉ objectPrototype →
     (calculateScore s = 100%Z ↔ correct_answer ex = None))
  ∧ (userAnswers s !! exercise_id ex = None →
     exercise_id ex ∈ objectPrototype →
     calculateScore s = 0%Z)
  ∧ (calculateScore s = 0%Z ∨ calculateScore s = 100%Z)
  ∧ getScoreColor (calculateScore s) ≠ "text-yellow-600".
Proof.
  intros Hex. unfold calculateScore, handleAnswerChange, get. simpl.
  rewrite Hex. split_and!.
  - intros answer. rewrite lookup_insert_eq.
    destruct (correct_answer ex) as [correct|]; simpl.
    + case_bool_decide; case_decide; congruence.
    + done.
  - intros first last. by rewrite !lookup_insert_eq.
  - intros other answer Hne. by rewrite lookup_insert_ne.
  - intros -> Hown. rewrite bool_decide_eq_false_2 by done.
    destruct (correct_answer ex); simpl; split; intros; done.
  - intros -> Hinherited. by rewrite bool_decide_eq_true_2 by done.
  - destruct (strictEquals _ _); auto.
  - by destruct (strictEquals _ _).
Qed.

Lemma score_follows_current_answer_sample :
  (exercises
     {| exercises := [{| exercise_id := "a"; correct_answer := Some "is" |}];
        currentExercise := 0; userAnswers := ∅; showResults := false |}
     !! 0 = Some {| exercise_id := "a"; correct_answer := Some "is" |}
   ∧ calculateScore
       (handleAnswerChange "a" "is"
          {| exercises :=
               [{| exercise_id := "a"; correct_answer := Some "is" |}];
             currentExercise := 0; userAnswers := ∅; showResults := false |})
     = 100%Z)
  ∧ (exercises
       {| exercises :=
            [{| exercise_id := "constructor"; correct_answer := None |}];
          currentExercise := 0; userAnswers := ∅; showResults := false |}
       !! 0 = Some {| exercise_id := "constructor"; correct_answer := None |}
     ∧ (∅ : gmap string string) !! "constructor" = None
     ∧ "constructor" ∈ objectPrototype
     ∧ calculateScore
         {| exercises :=
              [{| exercise_id := "constructor"; correct_answer := None |}];
            currentExercise := 0; userAnswers := ∅; showResults := false |}
       = 0%Z).
Proof.
  split.
  - split; [reflexivity |].
    pose proof (score_follows_current_answer
                  {| exercises :=
                       [{| exercise_id := "a"; correct_answer := Some "is" |}];
                     currentExercise := 0; userAnswers := ∅;
                     showResults := false |}
                  {| exercise_id := "a"; correct_answer := Some "is" |}
                  eq_refl) as (H & _).
    exact (H "is").
  - assert ("constructor" ∈ objectPrototype) as Hin
      by (apply list_elem_of_here).
    split_and!; [reflexivity | reflexivity | exact Hin |].
    pose proof (score_follows_current_answer
                  {| exercises :=
                       [{| exercise_id := "constructor";
                           correct_answer := None |}];
                     currentExercise := 0; userAnswers := ∅;
                     showResults := false |}
                  {| exercise_id := "constructor"; correct_answer := None |}
                  eq_refl) as (_ & _ & _ & _ & H & _).
    exact (H eq_refl Hin).
Defined.

End PanelFacts.
